(** * HighlightedText: the highlight-range merger of the command palette

    A shallow embedding of the function [HighlightedText] of the command
    palette component, and the properties of its three phases: the stable
    sort of the highlight ranges by start index, the merge pass over the
    sorted ranges, and the emission of plain and highlighted segments.

    Numbers are modelled as [Z]: the ranges are integer index pairs, and
    on integers of the safe range the arithmetic of the source ([+ 1],
    [Math.max], the sign of [a[0] - b[0]]) is exact.  A string is a
    [string]; its characters stand for the code units that [length] and
    [slice] count.  The React keys and the CSS classes of the produced
    elements are attributes of the rendering and are not modelled: an
    element is its tag ([span] or [mark]) and its text. *)

From Stdlib Require Import ZArith String Ascii Lia.
From stdpp Require Import base list strings pretty.

Local Open Scope Z_scope.

(** ** Data model *)

(** Modelled from the spec: the declaration of the type [HighlightRange]
    is imported by the component from its [types] module, which is not
    among the sources.  The spec gives it as a pair of integer offsets
    [[start, end]], both inclusive; the code reads it as [range[0]] and
    [range[1]]. *)
Definition HighlightRange : Type := (Z * Z)%type.

Definition range_start (r : HighlightRange) : Z := r.1.
Definition range_end (r : HighlightRange) : Z := r.2.

(** The two elements the function produces: [<span>] for text outside
    the matches and [<mark>] for a match. *)
Inductive kind : Type := plain | highlighted.

#[global] Instance kind_eq_dec : EqDecision kind.
Proof. solve_decision. Defined.

(** A rendered element: its tag and the text inside it. *)
Record segment : Type := Segment { seg_kind : kind; content : string }.

(** One call of [text.slice]: the tag of the element it fills, the start
    argument and the end argument ([None] for the one-argument call
    [text.slice(lastIndex)]). *)
Record piece : Type :=
  Piece { piece_kind : kind; piece_start : Z; piece_end : option Z }.

(** ** String.prototype.slice *)

(** A relative index: negative arguments count from the end of the
    string, and the result is clamped to [[0, len]]. *)
Definition clamp_index (len i : Z) : Z :=
  if i <? 0 then Z.max (len + i) 0 else Z.min i len.

(** The half-open interval of indices [[from, to)] a call of [slice]
    selects in a string of length [len]. *)
Definition slice_bounds (len start : Z) (end_ : option Z) : Z * Z :=
  (clamp_index len start,
   match end_ with
   | None => len
   | Some e => clamp_index len e
   end).

Definition slice (text : string) (start : Z) (end_ : option Z) : string :=
  let '(from, to) := slice_bounds (Z.of_nat (String.length text)) start end_ in
  if from >=? to then EmptyString
  else substring (Z.to_nat from) (Z.to_nat (to - from)) text.

(** ** Array.prototype.sort with a comparator *)

(** [sort] is stable: elements the comparator does not order keep their
    order.  For a comparator that is a difference of integer keys the
    result is determined; it is computed here by insertion, each element
    being placed before the first element that it does not follow. *)
Fixpoint insert_sorted {A : Type} (cmp : A -> A -> Z) (x : A) (l : list A)
  : list A :=
  match l with
  | [] => [x]
  | y :: l' => if cmp x y <=? 0 then x :: l else y :: insert_sorted cmp x l'
  end.

Definition Array_sort {A : Type} (cmp : A -> A -> Z) (l : list A) : list A :=
  foldr (insert_sorted cmp) [] l.

(** ** The pure reading of HighlightedText *)

(** [(a, b) => a[0] - b[0]] *)
Definition by_start (a b : HighlightRange) : Z := range_start a - range_start b.

(** [[...highlights].sort((a, b) => a[0] - b[0])] *)
Definition sortedHighlights (highlights : list HighlightRange)
  : list HighlightRange :=
  Array_sort by_start highlights.

(** The body of the merge loop.  [last] is the last element of
    [mergedHighlights] ([None] when the array is empty, where the source
    reads index [-1] and gets [undefined]); the assignment to [last[1]]
    updates that element in place. *)
Definition merge_step (mergedHighlights : list HighlightRange)
  (range : HighlightRange) : list HighlightRange :=
  match last mergedHighlights with
  | Some l =>
      if range_start range <=? range_end l + 1
      then <[(length mergedHighlights - 1)%nat :=
               (range_start l, Z.max (range_end l) (range_end range))]>
             mergedHighlights
      else mergedHighlights ++ [range]
  | None => mergedHighlights ++ [range]
  end.

Definition mergedHighlights (sorted : list HighlightRange)
  : list HighlightRange :=
  fold_left merge_step sorted [].

(** The body of the [forEach] over the merged ranges; the state is the
    array [parts] and the cursor [lastIndex]. *)
Definition emit_step (st : list piece * Z) (range : HighlightRange)
  : list piece * Z :=
  let '(parts, lastIndex) := st in
  let '(start, end_) := range in
  let parts :=
    if start >? lastIndex
    then parts ++ [Piece plain lastIndex (Some start)]
    else parts in
  (parts ++ [Piece highlighted start (Some (end_ + 1))], end_ + 1).

Definition emit_pieces (text : string) (merged : list HighlightRange)
  : list piece :=
  let '(parts, lastIndex) := fold_left emit_step merged ([], 0) in
  if lastIndex <? Z.of_nat (String.length text)
  then parts ++ [Piece plain lastIndex None]
  else parts.

(** The slice calls of a run of the function on a non-empty list. *)
Definition pieces (text : string) (highlights : list HighlightRange)
  : list piece :=
  emit_pieces text (mergedHighlights (sortedHighlights highlights)).

Definition render (text : string) (p : piece) : segment :=
  Segment (piece_kind p) (slice text (piece_start p) (piece_end p)).

(** The function.  [highlights] is optional; without it, or with an empty
    array, the text is returned as it is, inside the outer [<span>]: one
    plain segment. *)
Definition HighlightedText (text : string)
  (highlights : option (list HighlightRange)) : list segment :=
  match highlights with
  | None => [Segment plain text]
  | Some hl =>
      if (length hl =? 0)%nat then [Segment plain text]
      else render text <$> pieces text hl
  end.

(** The index interval [[from, to)] of the text that each emitted segment
    shows, in emission order. *)
Definition index_range (text : string) (p : piece) : Z * Z :=
  slice_bounds (Z.of_nat (String.length text)) (piece_start p) (piece_end p).

Definition index_ranges (text : string)
  (highlights : option (list HighlightRange)) : list (Z * Z) :=
  match highlights with
  | None => [(0, Z.of_nat (String.length text))]
  | Some hl =>
      if (length hl =? 0)%nat then [(0, Z.of_nat (String.length text))]
      else index_range text <$> pieces text hl
  end.

(** The text shown by a run: the contents of the segments, in order. *)
Definition shown (segs : list segment) : string :=
  foldr (fun s acc => String.app (content s) acc) EmptyString segs.

(** ** The function on a store

    JavaScript arrays are objects: [highlights] is a reference to an array
    of references to two-element arrays, which the caller may share and
    may list twice.  The store has the two-element arrays ([tuples]) and
    the arrays of references to them ([arrays]); a reference is an index,
    and a new object is put at the end.  A computation takes a store and
    returns a value and a store, or nothing where the source would throw a
    [TypeError] (reading an element of [undefined]). *)
Definition loc : Type := nat.

Record heap : Type := Heap { tuples : list HighlightRange; arrays : list (list loc) }.

Definition M (A : Type) : Type := heap -> option (A * heap).

#[global] Instance M_ret : MRet M := fun A a h => Some (a, h).
#[global] Instance M_bind : MBind M := fun A B f m h =>
  match m h with
  | Some (a, h') => f a h'
  | None => None
  end.

Definition read_array (a : loc) : M (list loc) := fun h =>
  match arrays h !! a with
  | Some l => Some (l, h)
  | None => None
  end.

Definition write_array (a : loc) (l : list loc) : M unit := fun h =>
  match arrays h !! a with
  | Some _ => Some (tt, Heap (tuples h) (<[a := l]> (arrays h)))
  | None => None
  end.

Definition new_array (l : list loc) : M loc := fun h =>
  Some (length (arrays h), Heap (tuples h) (arrays h ++ [l])).

Definition read_tuple (r : loc) : M HighlightRange := fun h =>
  match tuples h !! r with
  | Some v => Some (v, h)
  | None => None
  end.

Definition write_tuple (r : loc) (v : HighlightRange) : M unit := fun h =>
  match tuples h !! r with
  | Some _ => Some (tt, Heap (<[r := v]> (tuples h)) (arrays h))
  | None => None
  end.

Definition new_tuple (v : HighlightRange) : M loc := fun h =>
  Some (length (tuples h), Heap (tuples h ++ [v]) (arrays h)).

(** [a.push(r)] *)
Definition push (a : loc) (r : loc) : M unit :=
  l ← read_array a; write_array a (l ++ [r]).

Fixpoint for_each {A : Type} (l : list A) (body : A -> M unit) : M unit :=
  match l with
  | [] => mret tt
  | x :: l' => _ ← body x; for_each l' body
  end.

Fixpoint fold_each {A S : Type} (body : S -> A -> M S) (l : list A) (s : S)
  : M S :=
  match l with
  | [] => mret s
  | x :: l' => s' ← body s x; fold_each body l' s'
  end.

(** The sort with a comparator that reads the store. *)
Fixpoint insert_sortedM {A : Type} (cmp : A -> A -> M Z) (x : A) (l : list A)
  : M (list A) :=
  match l with
  | [] => mret [x]
  | y :: l' =>
      c ← cmp x y;
      if c <=? 0 then mret (x :: l)
      else l'' ← insert_sortedM cmp x l'; mret (y :: l'')
  end.

Fixpoint Array_sortM {A : Type} (cmp : A -> A -> M Z) (l : list A)
  : M (list A) :=
  match l with
  | [] => mret []
  | x :: l' => s ← Array_sortM cmp l'; insert_sortedM cmp x s
  end.

(** [a.sort(cmp)]: the array is sorted in place. *)
Definition sort_in_place (cmp : loc -> loc -> M Z) (a : loc) : M unit :=
  l ← read_array a; s ← Array_sortM cmp l; write_array a s.

(** [(a, b) => a[0] - b[0]] on references. *)
Definition by_startM (a b : loc) : M Z :=
  ta ← read_tuple a; tb ← read_tuple b;
  mret (range_start ta - range_start tb).

(** The body of the merge loop: [last[1] = ...] writes to the object
    [last] refers to, and [push([...range])] stores a copy of [range]. *)
Definition merge_bodyM (merged : loc) (range : loc) : M unit :=
  ms ← read_array merged;
  match last ms with
  | Some l =>
      r ← read_tuple range;
      lt ← read_tuple l;
      if range_start r <=? range_end lt + 1
      then write_tuple l (range_start lt, Z.max (range_end lt) (range_end r))
      else c ← new_tuple r; push merged c
  | None =>
      r ← read_tuple range;
      c ← new_tuple r; push merged c
  end.

Definition emit_bodyM (st : list piece * Z) (range : loc)
  : M (list piece * Z) :=
  r ← read_tuple range; mret (emit_step st r).

Definition HighlightedTextM (text : string) (highlights : option loc)
  : M (list segment) :=
  match highlights with
  | None => mret [Segment plain text]
  | Some a =>
      hl ← read_array a;
      if (length hl =? 0)%nat then mret [Segment plain text]
      else
        sorted ← new_array hl;
        _ ← sort_in_place by_startM sorted;
        merged ← new_array [];
        ranges ← read_array sorted;
        _ ← for_each ranges (merge_bodyM merged);
        ms ← read_array merged;
        st ← fold_each emit_bodyM ms ([], 0);
        let '(parts, lastIndex) := st in
        let parts :=
          if lastIndex <? Z.of_nat (String.length text)
          then parts ++ [Piece plain lastIndex None]
          else parts in
        mret (render text <$> parts)
  end.

(** The value of an array of ranges in a store: the ranges its elements
    refer to, when they all exist. *)
Definition load (h : heap) (a : loc) : option (list HighlightRange) :=
  match arrays h !! a with
  | Some l => mapM (fun r => tuples h !! r) l
  | None => None
  end.

(** A reference and the range it refers to among the two-element arrays. *)
Definition points_to (T : list HighlightRange) (r : loc) (v : HighlightRange)
  : Prop :=
  T !! r = Some v.

(** ** Predicates of the claims *)

(** The invariant of the data model, [0 <= start <= end < text.length]. *)
Definition valid_range (text : string) (r : HighlightRange) : Prop :=
  0 <= range_start r /\ range_start r <= range_end r
  /\ range_end r < Z.of_nat (String.length text).

(** A range that is not negative and not inverted, [0 <= start <= end]. *)
Definition ordered_range (r : HighlightRange) : Prop :=
  0 <= range_start r /\ range_start r <= range_end r.


(** Two half-open index intervals share no index. *)
Definition no_overlap (a b : Z * Z) : Prop :=
  forall i, ~ (a.1 <= i < a.2 /\ b.1 <= i < b.2).

(** Each element of a list and the one after it are related by [R]. *)
Fixpoint chain {A : Type} (R : A -> A -> Prop) (l : list A) : Prop :=
  match l with
  | a :: l' =>
      match l' with
      | b :: _ => R a b
      | [] => True
      end /\ chain R l'
  | [] => True
  end.

(** The same, by positions. *)
Definition consecutive {A : Type} (R : A -> A -> Prop) (l : list A) : Prop :=
  forall (i : nat) (a b : A), l !! i = Some a -> l !! S i = Some b -> R a b.

Fixpoint pairwise {A : Type} (R : A -> A -> Prop) (l : list A) : Prop :=
  match l with
  | [] => True
  | a :: l' => Forall (R a) l' /\ pairwise R l'
  end.

(** Sorted by start, ascending. *)
Definition sorted_by_start (l : list HighlightRange) : Prop :=
  chain (fun a b => range_start a <= range_start b) l.

(** Each range starts more than one index after the end of the one
    before it: at least one index between them is in neither. *)
Definition separated (l : list HighlightRange) : Prop :=
  chain (fun a b => range_end a + 1 < range_start b) l.

(** A piece ends where the next one starts, and their tags differ. *)
Definition linked (p q : piece) : Prop :=
  piece_end p = Some (piece_start q) /\ piece_kind p <> piece_kind q.

(** The intervals, in their order, cover [[a, b)] once: the first starts
    at [a], each starts where the one before it ends, and the last ends
    at [b]. *)
Fixpoint tiles (a b : Z) (l : list (Z * Z)) : Prop :=
  match l with
  | [] => a = b
  | i :: l' => i.1 = a /\ a <= i.2 /\ tiles i.2 b l'
  end.

(** ** The algorithm in the words of the specification *)

(** The merge pass with its current merged range: a new range is merged
    into the current one when [start <= current.end + 1], the end becoming
    the larger of the two; otherwise the current range is finalized and
    the new range starts a fresh one. *)
Fixpoint spec_merge (current : HighlightRange) (rest : list HighlightRange)
  : list HighlightRange :=
  match rest with
  | [] => [current]
  | new :: rest' =>
      if range_start new <=? range_end current + 1
      then spec_merge
             (range_start current, Z.max (range_end current) (range_end new))
             rest'
      else current :: spec_merge new rest'
  end.

(** The emission with its cursor: a plain segment [[cursor, start)] when
    [start > cursor], the highlighted segment [[start, end]], the cursor
    moved to [end + 1]; after the last range a plain segment
    [[cursor, text.length)] when [cursor < text.length]. *)
Fixpoint spec_emission (text : string) (cursor : Z)
  (ranges : list HighlightRange) : list piece :=
  match ranges with
  | [] =>
      if cursor <? Z.of_nat (String.length text)
      then [Piece plain cursor None] else []
  | range :: ranges' =>
      (if range_start range >? cursor
       then [Piece plain cursor (Some (range_start range))] else [])
      ++ Piece highlighted (range_start range) (Some (range_end range + 1))
      :: spec_emission text (range_end range + 1) ranges'
  end.

(** The ranges can be walked from the cursor: each starts at or after
    the cursor and is not inverted. *)
Fixpoint walkable (cursor : Z) (ranges : list HighlightRange) : Prop :=
  match ranges with
  | [] => True
  | range :: ranges' =>
      cursor <= range_start range /\ range_start range <= range_end range
      /\ walkable (range_end range + 1) ranges'
  end.

(** ** Indices and ranges *)

(** The index is inside the inclusive range. *)
Definition covers (r : HighlightRange) (i : Z) : Prop :=
  range_start r <= i <= range_end r.

(** The index is inside one of the ranges. *)
Definition covered (l : list HighlightRange) (i : Z) : Prop :=
  Exists (fun r => covers r i) l.

(** A range that is not inverted, [start <= end]. *)
Definition not_inverted (r : HighlightRange) : Prop :=
  range_start r <= range_end r.

(** The highlighted piece of a merged range: the slice from its start up
    to its end, inclusive. *)
Definition mark_of (r : HighlightRange) : piece :=
  Piece highlighted (range_start r) (Some (range_end r + 1)).

(** The character at the index is shown inside a highlighted segment:
    a segment of the output is highlighted and its index interval has
    the index. *)
Definition highlighted_index (text : string)
  (highlights : option (list HighlightRange)) (i : Z) : Prop :=
  exists (n : nat) (s : segment) (r : Z * Z),
    HighlightedText text highlights !! n = Some s
    /\ index_ranges text highlights !! n = Some r
    /\ seg_kind s = highlighted /\ r.1 <= i < r.2.

(** ** The keyboard handlers of the command palette

    [Panel] keeps the index of the highlighted item in a ref and handles
    Cmd/Ctrl+Enter; [PanelInput] calls the handler of the consumer first,
    then closes the dialog on Escape, then hands the event to the handler
    of [Panel].  The callbacks
    of the consumer are not known: a handler is modelled by the event it
    leaves and the calls it makes, in their order.  What a callback of
    the consumer does matters to the handlers only through
    [e.defaultPrevented]. *)

Record KeyboardEvent : Type :=
  { key : string; metaKey : bool; ctrlKey : bool; defaultPrevented : bool }.

(** [e.preventDefault()] *)
Definition preventDefault (e : KeyboardEvent) : KeyboardEvent :=
  {| key := key e; metaKey := metaKey e; ctrlKey := ctrlKey e;
     defaultPrevented := true |}.

(** A call of a callback of the consumer. *)
Inductive call (TItem : Type) : Type :=
  | onKeyDown_called (e : KeyboardEvent)
  | onOpenChange_called (open : bool)
  | onItemHighlighted_called (index : Z)
  | onSelect_called (item : TItem) (newTab : bool).

Arguments onKeyDown_called {TItem} e.
Arguments onOpenChange_called {TItem} open.
Arguments onItemHighlighted_called {TItem} index.
Arguments onSelect_called {TItem} item newTab.

(** The props of [Panel] that its handlers read.  [onSelect] and
    [onItemHighlighted] are optional callbacks: the field says whether
    the consumer gave one. *)
Record PanelProps (TGroup TItem : Type) : Type :=
  { items : list TGroup;
    onSelect : bool;
    getSelectableItems : option (list TGroup -> list TItem);
    onItemHighlighted : bool }.

Arguments items {TGroup TItem} _.
Arguments onSelect {TGroup TItem} _.
Arguments getSelectableItems {TGroup TItem} _.
Arguments onItemHighlighted {TGroup TItem} _.

(** [array[index]] for an integer index: [undefined] outside the array,
    also for [-1]. *)
Definition array_get {A : Type} (l : list A) (index : Z) : option A :=
  if index <? 0 then None else l !! Z.to_nat index.



(** [handleInputKeyDown], with the value of the ref. *)
Definition handleInputKeyDown {TGroup TItem : Type}
  (props : PanelProps TGroup TItem) (highlightedIndex : Z) (e : KeyboardEvent)
  : KeyboardEvent * list (call TItem) :=
  let isEnter := String.eqb (key e) "Enter" in
  let withModifier := metaKey e || ctrlKey e in
  match getSelectableItems props with
  | Some get =>
      if isEnter && withModifier && onSelect props
      then
        let selectableItems := get (items props) in
        match array_get selectableItems highlightedIndex with
        | Some highlightedItem =>
            (preventDefault e, [onSelect_called highlightedItem true])
        | None => (e, [])
        end
      else (e, [])
  | None => (e, [])
  end.

(** [handleKeyDown] of [PanelInput].  [onKeyDownProp] is the handler of
    the consumer, when there is one: it says whether it calls
    [e.preventDefault()].  [onClose] is there inside a [Dialog], and
    calls [onOpenChange(false)].  [onInputKeyDown] is there inside a
    [Panel]. *)
Definition handleKeyDown {TItem : Type}
  (onKeyDownProp : option (KeyboardEvent -> bool)) (onClose : bool)
  (onInputKeyDown : option (KeyboardEvent -> KeyboardEvent * list (call TItem)))
  (e : KeyboardEvent) : KeyboardEvent * list (call TItem) :=
  let '(e, calls) :=
    match onKeyDownProp with
    | Some handler =>
        (if handler e then preventDefault e else e, [onKeyDown_called e])
    | None => (e, [])
    end in
  if defaultPrevented e then (e, calls)
  else if String.eqb (key e) "Escape" && onClose
  then (preventDefault e, calls ++ [onOpenChange_called false])
  else
    match onInputKeyDown with
    | Some handler => let '(e', calls') := handler e in (e', calls ++ calls')
    | None => (e, calls)
    end.

(** A key pressed in the input of a panel, inside a dialog or not. *)
Definition Panel_keyDown {TGroup TItem : Type}
  (props : PanelProps TGroup TItem) (highlightedIndex : Z)
  (onKeyDownProp : option (KeyboardEvent -> bool)) (inDialog : bool)
  (e : KeyboardEvent) : KeyboardEvent * list (call TItem) :=
  handleKeyDown onKeyDownProp inDialog
    (Some (handleInputKeyDown props highlightedIndex)) e.

(** The handler made a call that acts on the palette: it closed the
    dialog or selected an item. *)
Definition acted {TItem : Type} (calls : list (call TItem)) : Prop :=
  onOpenChange_called false ∈ calls
  \/ exists item newTab, onSelect_called item newTab ∈ calls.

(** ** ResultItem

    The component that calls [HighlightedText]: once for each breadcrumb,
    with the highlights at the index of the breadcrumb, and once for the
    title. *)

(** The props of [ResultItem] that decide what it shows.  Their
    declaration ([CommandPaletteResultItemProps]) is in the [types]
    module, which is not among the sources: the fields are those the
    function reads, optional where it reads them as optional.  [icon] says
    whether an icon is given; [showArrow], [external] and [nonInteractive]
    have the defaults [true], [false] and [false]. *)
Record ResultItemProps : Type :=
  { title : string;
    breadcrumbs : option (list string);
    titleHighlights : option (list HighlightRange);
    breadcrumbHighlights : option (list (list HighlightRange));
    description : option string;
    icon : bool;
    showArrow : option bool;
    external : option bool;
    nonInteractive : option bool }.

(** What [ResultItem] renders: whether the item has a click handler, and
    the parts of its row from left to right. *)
Record ResultItemView : Type :=
  { view_onClick : bool;
    view_icon : bool;
    view_breadcrumbs : list (list segment);
    view_title : list segment;
    view_external : bool;
    view_description : option string;
    view_arrow : bool }.

(** [breadcrumbHighlights?.[index]] *)
Definition highlights_at (breadcrumbHighlights : option (list (list HighlightRange)))
  (index : nat) : option (list HighlightRange) :=
  match breadcrumbHighlights with
  | Some all => all !! index
  | None => None
  end.

Definition ResultItem (props : ResultItemProps) : ResultItemView :=
  let showArrow := default true (showArrow props) in
  let external := default false (external props) in
  let nonInteractive := default false (nonInteractive props) in
  {| view_onClick := negb nonInteractive;
     view_icon := icon props;
     view_breadcrumbs :=
       match breadcrumbs props with
       | Some crumbs =>
           imap (fun index crumb =>
                   HighlightedText crumb
                     (highlights_at (breadcrumbHighlights props) index))
             crumbs
       | None => []
       end;
     view_title := HighlightedText (title props) (titleHighlights props);
     view_external := external;
     view_description :=
       match description props with
       | Some d => if String.eqb d "" then None else Some d
       | None => None
       end;
     view_arrow := showArrow && negb external && negb nonInteractive |}.

(** ** The command [blocks]

    The command reads the component registry (a JSON file) and lists its
    blocks by category.  Reading and parsing the file is outside the
    model: the function takes what [loadRegistry] gives, a registry or
    the error it throws.  [console.log] and [console.error] add their
    argument to the output lines; [localeCompare] is the comparison of
    the host, taken as a parameter. *)

Module Block.
Record t : Type :=
  { name : string;
    type : string;
    description : string;
    category : string;
    files : list string;
    dependencies : list string }.
End Block.

(** The property [blocks] of the registry is optional; it is an object,
    given by its entries in the order of [Object.keys]. *)
Module ComponentRegistry.
Record t : Type :=
  { version : string;
    blocks : option (list (string * Block.t)) }.
End ComponentRegistry.

(** A thrown value: whether it is an [Error], and its property [code]
    when it has one. *)
Record thrown : Type := { instanceof_Error : bool; code : option string }.

Inductive completion : Type :=
  | returned
  | exited (status : Z)
  | rethrown (error : thrown).

Record process : Type :=
  { stdout : list string; stderr : list string; completed : completion }.

(** A [Map] with string keys: its entries in insertion order. *)
Fixpoint Map_has {V : Type} (m : list (string * V)) (k : string) : bool :=
  match m with
  | [] => false
  | (k', _) :: m' => String.eqb k k' || Map_has m' k
  end.

Fixpoint Map_get {V : Type} (m : list (string * V)) (k : string) : option V :=
  match m with
  | [] => None
  | (k', v) :: m' => if String.eqb k k' then Some v else Map_get m' k
  end.

(** [set] replaces the value of a key that is there, in its place, and
    adds a new key at the end. *)
Fixpoint Map_set {V : Type} (m : list (string * V)) (k : string) (v : V)
  : list (string * V) :=
  match m with
  | [] => [(k, v)]
  | (k', v') :: m' =>
      if String.eqb k k' then (k', v) :: m' else (k', v') :: Map_set m' k v
  end.

(** [block.category || "Other"] *)
Definition category_of (block : Block.t) : string :=
  if String.eqb (Block.category block) "" then "Other"
  else Block.category block.

(** The body of the grouping loop.  [push] adds the block to the array
    that the map has for the category; the array is there, since the key
    was set when it was missing. *)
Definition group_step (byCategory : list (string * list Block.t))
  (block : Block.t) : list (string * list Block.t) :=
  let category := category_of block in
  let byCategory :=
    if negb (Map_has byCategory category)
    then Map_set byCategory category []
    else byCategory in
  match Map_get byCategory category with
  | Some l => Map_set byCategory category (l ++ [block])
  | None => byCategory
  end.

Definition byCategory_of (blockList : list Block.t)
  : list (string * list Block.t) :=
  fold_left group_step blockList [].

(** The comparison of the default [sort]: strings by their code units. *)
Definition string_compare (a b : string) : Z :=
  match String.compare a b with
  | Lt => -1
  | Eq => 0
  | Gt => 1
  end.

(** [[...byCategory.keys()].sort()] *)
Definition sortedCategories (byCategory : list (string * list Block.t))
  : list string :=
  Array_sort string_compare (fst <$> byCategory).

(** [[...byCategory.get(category)!].sort((a, b) =>
    a.name.localeCompare(b.name))] *)
Definition categoryBlocks (localeCompare : string -> string -> Z)
  (byCategory : list (string * list Block.t)) (category : string)
  : list Block.t :=
  Array_sort
    (fun a b => localeCompare (Block.name a) (Block.name b))
    (default [] (Map_get byCategory category)).

Definition newline : string := String "010" EmptyString.

Definition block_line (block : Block.t) : string :=
  "  " +:+ Block.name block +:+ " - " +:+ Block.description block.

(** The lines printed for a category: its name, its blocks, and an empty
    line. *)
Definition category_lines (category : string) (blocks : list Block.t)
  : list string :=
  (category +:+ ":") :: (block_line <$> blocks) ++ [EmptyString].

Definition blocks_header (blockList : list Block.t) : string :=
  "Kumo Blocks (" +:+ pretty (length blockList) +:+ " total)" +:+ newline.

Definition blocks_footer : list string :=
  ["To install a block, run:"; "  kumo add <block-name>" +:+ newline;
   "Example:"; "  kumo add PageHeader"].

(** The sections of the listing: the sorted categories, each with its
    sorted blocks. *)
Definition sections (localeCompare : string -> string -> Z)
  (blockList : list Block.t) : list (string * list Block.t) :=
  let byCategory := byCategory_of blockList in
  (fun category => (category, categoryBlocks localeCompare byCategory category))
  <$> sortedCategories byCategory.

Definition blocks (localeCompare : string -> string -> Z)
  (loaded : thrown + ComponentRegistry.t) : process :=
  match loaded with
  | inr registry =>
      match ComponentRegistry.blocks registry with
      | None =>
          {| stdout := ["No blocks available."]; stderr := [];
             completed := returned |}
      | Some entries =>
          if (length entries =? 0)%nat
          then {| stdout := ["No blocks available."]; stderr := [];
                  completed := returned |}
          else
            let blockList := snd <$> entries in
            {| stdout :=
                 blocks_header blockList
                 :: (sections localeCompare blockList
                       ≫= fun s => category_lines s.1 s.2)
                 ++ blocks_footer;
               stderr := [];
               completed := returned |}
      end
  | inl error =>
      if instanceof_Error error
         && match code error with
            | Some c => String.eqb c "ENOENT"
            | None => false
            end
      then {| stdout := [];
              stderr := ["Error: Component registry not found. Run `pnpm codegen:registry` first."];
              completed := exited 1 |}
      else {| stdout := []; stderr := []; completed := rethrown error |}
  end.


(** ** ClipboardText: the copy

    [copyToClipboard] first uses the Clipboard API when the host has it,
    and otherwise, or when that fails, copies through a textarea that it
    adds to the document for the time of the copy.  The host is outside
    the model: the function takes what the host answers, and gives the
    calls it makes, in their order. *)

(** A call returns (a promise resolves) or throws (a promise rejects). *)
Inductive answer : Type := returns | throws.

(** The host and the props at the time of the click.
    [clipboard_writeText] is there when [navigator.clipboard.writeText]
    is a function; [previousRange] is the first range of the selection,
    when the selection has one; [onCopy] is the callback of the
    consumer, when one is given, with its answer to each of its calls
    (the first is call [0]). *)
Record CopyEnvironment : Type :=
  { clipboard_writeText : option answer;
    document_defined : bool;
    previousRange : option nat;
    execCommand_copy : answer;
    onCopy : option (nat -> answer) }.

Inductive effect : Type :=
  | writeText (text : string)
  | setCopied (copied : bool)
  | onCopy_called
  | appendChild_textarea (value : string)
  | textarea_select
  | execCommand_called
  | console_warn
  | removeChild_textarea
  | removeAllRanges
  | addRange (range : nat).

#[global] Instance effect_eq_dec : EqDecision effect.
Proof. solve_decision. Defined.

(** [setCopied(true); onCopy?.();] inside a [try], [onCopy] having been
    called [n] times before: the calls, and whether the block is left by
    a throw. *)
Definition copied_and_onCopy (env : CopyEnvironment) (n : nat)
  : list effect * answer :=
  match onCopy env with
  | Some answers => ([setCopied true; onCopy_called], answers n)
  | None => ([setCopied true], returns)
  end.

(** The copy through a textarea: the [try] with its [catch] and its
    [finally]. *)
Definition copy_with_textarea (text : string) (env : CopyEnvironment)
  (n : nat) : list effect :=
  if document_defined env
  then
    [appendChild_textarea text; textarea_select; execCommand_called]
    ++ match execCommand_copy env with
       | returns =>
           match copied_and_onCopy env n with
           | (calls, returns) => calls
           | (calls, throws) => calls ++ [console_warn]
           end
       | throws => [console_warn]
       end
    ++ [removeChild_textarea]
    ++ match previousRange env with
       | Some range => [removeAllRanges; addRange range]
       | None => []
       end
  else [].

Definition copyToClipboard (text : string) (env : CopyEnvironment)
  : list effect :=
  match clipboard_writeText env with
  | Some returns =>
      writeText text
      :: match copied_and_onCopy env 0 with
         | (calls, returns) => calls
         | (calls, throws) => calls ++ copy_with_textarea text env 1
         end
  | Some throws => writeText text :: copy_with_textarea text env 0
  | None => copy_with_textarea text env 0
  end.


(** The copy through the textarea is reached: the Clipboard API is not
    there, or [writeText] rejects, or [onCopy] throws after it. *)
Definition falls_back (env : CopyEnvironment) : bool :=
  match clipboard_writeText env with
  | Some returns =>
      match onCopy env with
      | Some answers =>
          match answers 0%nat with
          | throws => true
          | returns => false
          end
      | None => false
      end
  | Some throws => true
  | None => true
  end.

Example ex_full : HighlightedText "hi" (Some [(0, 1)]) = [Segment highlighted "hi"].
Proof. reflexivity. Qed.

Example ex_store :
  HighlightedTextM "abcdefg" (Some 0%nat)
    (Heap [(4, 5); (0, 2); (3, 3)] [[0; 1; 0]%nat])
  = Some ([Segment highlighted "abc"; Segment plain "d";
           Segment highlighted "ef"; Segment plain "g"],
          Heap [(4, 5); (0, 2); (3, 3); (0, 2); (4, 5)]
               [[0; 1; 0]; [1; 0; 0]; [3; 4]]%nat).
Proof. vm_compute. reflexivity. Qed.

(** * Properties *)

(** ** Substrings *)

Lemma substring_nothing (n : nat) (s : string) : substring n 0 s = EmptyString.
Proof.
  revert n. induction s as [|c s IH]; intros [|n]; simpl; auto.
Qed.

Lemma substring_whole (s : string) : substring 0 (String.length s) s = s.
Proof. induction s as [|c s IH]; simpl; [reflexivity | now rewrite IH]. Qed.

Lemma substring_split (s : string) (n m k : nat) :
  substring n (m + k) s
  = String.app (substring n m s) (substring (n + m) k s).
Proof.
  revert n m. induction s as [|c s IH]; intros n m.
  - destruct n, m, k; reflexivity.
  - destruct n as [|n].
    + destruct m as [|m]; simpl.
      * reflexivity.
      * rewrite (IH 0%nat m). reflexivity.
    + simpl. apply IH.
Qed.

Lemma string_app_empty_r (s : string) : String.app s EmptyString = s.
Proof.
  induction s as [|c s IH]; [reflexivity|].
  change (String c (String.app s EmptyString) = String c s). now rewrite IH.
Qed.

Lemma length_substring (s : string) (n m : nat) :
  (n + m <= String.length s)%nat -> String.length (substring n m s) = m.
Proof.
  revert n m. induction s as [|c s IH]; intros n m Hle; simpl in Hle.
  - assert (n = 0%nat) by lia. assert (m = 0%nat) by lia. subst. reflexivity.
  - destruct n as [|n].
    + destruct m as [|m]; simpl; [reflexivity|].
      rewrite (IH 0%nat m); [reflexivity | simpl; lia].
    + simpl. apply IH. lia.
Qed.

(** ** slice *)

Section Slice.
Variable text : string.
Local Notation "'len'" := (Z.of_nat (String.length text)).

Lemma clamp_index_range (i : Z) : 0 <= clamp_index len i <= len.
Proof. unfold clamp_index. destruct (Z.ltb_spec i 0); lia. Qed.

(** Whatever its arguments, [slice] returns a substring of the text. *)
Lemma slice_substring (a : Z) (b : option Z) :
  exists n m : nat, slice text a b = substring n m text.
Proof.
  unfold slice. destruct (slice_bounds _ a b) as [from to].
  destruct (from >=? to).
  - exists 0%nat, 0%nat. now rewrite substring_nothing.
  - eauto.
Qed.

End Slice.

Lemma slice_empty_text (a : Z) (b : option Z) :
  slice EmptyString a b = EmptyString.
Proof.
  unfold slice, slice_bounds.
  pose proof (clamp_index_range EmptyString a) as Ha.
  change (Z.of_nat (String.length EmptyString)) with 0 in *.
  destruct b as [b|].
  - pose proof (clamp_index_range EmptyString b) as Hb.
    change (Z.of_nat (String.length EmptyString)) with 0 in *.
    destruct (Z.geb_spec (clamp_index 0 a) (clamp_index 0 b));
      [reflexivity | lia].
  - destruct (Z.geb_spec (clamp_index 0 a) 0); [reflexivity | lia].
Qed.

(** ** Lists: neighbours *)

Lemma chain_cons {A : Type} (R : A -> A -> Prop) (a b : A) (l : list A) :
  chain R (a :: b :: l) <-> R a b /\ chain R (b :: l).
Proof. reflexivity. Qed.

Lemma chain_consecutive {A : Type} (R : A -> A -> Prop) (l : list A) :
  chain R l <-> consecutive R l.
Proof.
  unfold consecutive. induction l as [|a l IH].
  - split; [intros _ i x y Hx; discriminate Hx | intros _; exact I].
  - destruct l as [|b l].
    + split; [intros _ [|i] x y Hx Hy; discriminate Hy | simpl; tauto].
    + rewrite chain_cons, IH. split.
      * intros [Hab Hl] [|i] x y Hx Hy.
        -- simpl in Hx, Hy. congruence.
        -- exact (Hl i x y Hx Hy).
      * intros H. split.
        -- exact (H 0%nat a b eq_refl eq_refl).
        -- intros i x y Hx Hy. exact (H (S i) x y Hx Hy).
Qed.

(** ** The sort *)

Section Sort.
Context {A : Type} (cmp : A -> A -> Z).

Lemma insert_sorted_perm (x : A) (l : list A) :
  insert_sorted cmp x l ≡ₚ x :: l.
Proof.
  induction l as [|y l IH]; simpl; [reflexivity|].
  destruct (cmp x y <=? 0); [reflexivity|].
  rewrite IH. apply Permutation_swap.
Qed.

(** The sorted array has the elements of the array, each as often. *)
Lemma Array_sort_perm (l : list A) : Array_sort cmp l ≡ₚ l.
Proof.
  induction l as [|x l IH]; simpl; [reflexivity|].
  rewrite insert_sorted_perm. now rewrite IH.
Qed.

Lemma length_Array_sort (l : list A) :
  length (Array_sort cmp l) = length l.
Proof. now rewrite Array_sort_perm. Qed.

(** An array that is in order already is left as it is. *)
Lemma Array_sort_in_order (l : list A) :
  chain (fun a b => cmp a b <= 0) l -> Array_sort cmp l = l.
Proof.
  induction l as [|x l IH]; [reflexivity|].
  intros [Hx Hl]. simpl. fold (Array_sort cmp l). rewrite (IH Hl).
  destruct l as [|y l]; [reflexivity|]. simpl.
  destruct (Z.leb_spec (cmp x y) 0); [reflexivity | lia].
Qed.

End Sort.



Lemma insert_sorted_by_start (x : HighlightRange) (l : list HighlightRange) :
  sorted_by_start l -> sorted_by_start (insert_sorted by_start x l).
Proof.
  unfold sorted_by_start, by_start. induction l as [|y l IH]; intros Hl.
  - simpl. tauto.
  - simpl.
    destruct (Z.leb_spec (range_start x - range_start y) 0).
    + apply chain_cons. split; [lia | assumption].
    + destruct Hl as [Hy Hl]. specialize (IH Hl).
      destruct l as [|z l].
      * simpl. repeat split. lia.
      * simpl in IH |- *.
        destruct (Z.leb_spec (range_start x - range_start z) 0).
        -- repeat split; try lia; apply Hl.
        -- split; [assumption|]. exact IH.
Qed.

(** The sorted ranges are in ascending order of their starts. *)
Lemma sortedHighlights_sorted (l : list HighlightRange) :
  sorted_by_start (sortedHighlights l).
Proof.
  induction l as [|x l IH]; [exact I|].
  apply insert_sorted_by_start, IH.
Qed.

Lemma sortedHighlights_in_order (l : list HighlightRange) :
  sorted_by_start l -> sortedHighlights l = l.
Proof.
  intros Hl. apply Array_sort_in_order.
  unfold sorted_by_start in Hl. clear -Hl.
  induction l as [|a l IH]; [exact I|].
  destruct Hl as [Ha Hl]. split; [|auto].
  destruct l as [|b l]; [exact I|]. unfold by_start. lia.
Qed.

(** ** The merge pass *)

Lemma merge_step_nil (range : HighlightRange) : merge_step [] range = [range].
Proof. reflexivity. Qed.

Lemma merge_step_snoc (finalized : list HighlightRange) (current new : HighlightRange) :
  merge_step (finalized ++ [current]) new
  = if range_start new <=? range_end current + 1
    then finalized ++ [(range_start current,
                   Z.max (range_end current) (range_end new))]
    else finalized ++ [current; new].
Proof.
  unfold merge_step. rewrite last_snoc.
  destruct (range_start new <=? range_end current + 1).
  - rewrite length_app. simpl.
    replace (length finalized + 1 - 1)%nat with (length finalized + 0)%nat by lia.
    now rewrite insert_app_r.
  - now rewrite <- app_assoc.
Qed.

(** The loop over the sorted ranges, from a state whose last range is
    [current], finalizes what the specification's merge pass does. *)
Lemma fold_merge_step (rest finalized : list HighlightRange) (current : HighlightRange) :
  fold_left merge_step rest (finalized ++ [current]) = finalized ++ spec_merge current rest.
Proof.
  revert finalized current. induction rest as [|new rest IH]; intros finalized current.
  - reflexivity.
  - simpl fold_left. rewrite merge_step_snoc. simpl spec_merge.
    destruct (range_start new <=? range_end current + 1).
    + apply IH.
    + change (finalized ++ [current; new]) with (finalized ++ [current] ++ [new]).
      rewrite app_assoc, IH, <- app_assoc. reflexivity.
Qed.

Lemma mergedHighlights_cons (first : HighlightRange) (rest : list HighlightRange) :
  mergedHighlights (first :: rest) = spec_merge first rest.
Proof.
  unfold mergedHighlights. simpl fold_left. rewrite merge_step_nil.
  apply (fold_merge_step rest []).
Qed.

Lemma spec_merge_head (current : HighlightRange) (rest : list HighlightRange) :
  exists e tl, spec_merge current rest = (range_start current, e) :: tl.
Proof.
  revert current. induction rest as [|new rest IH]; intros [s e].
  - simpl. eauto.
  - simpl. destruct (range_start new <=? e + 1).
    + apply (IH (s, Z.max e (range_end new))).
    + eauto.
Qed.

(** Whatever the ranges are, two merged ranges that follow each other
    are apart by more than one index. *)
Lemma spec_merge_separated (current : HighlightRange) (rest : list HighlightRange) :
  separated (spec_merge current rest).
Proof.
  unfold separated.
  revert current. induction rest as [|new rest IH]; intros current.
  - simpl. tauto.
  - simpl. destruct (Z.leb_spec (range_start new) (range_end current + 1)).
    + apply IH.
    + specialize (IH new).
      destruct (spec_merge_head new rest) as (e & tl & Heq).
      rewrite Heq in IH |- *. apply chain_cons. split; [|exact IH].
      unfold range_start at 2. simpl. unfold range_start in *. lia.
Qed.

Lemma mergedHighlights_separated (l : list HighlightRange) :
  separated (mergedHighlights l).
Proof.
  destruct l as [|first rest]; [exact I|].
  rewrite mergedHighlights_cons. apply spec_merge_separated.
Qed.

(** Ranges that are apart already are left as they are. *)
Lemma spec_merge_apart (current : HighlightRange) (rest : list HighlightRange) :
  separated (current :: rest) -> spec_merge current rest = current :: rest.
Proof.
  unfold separated.
  revert current. induction rest as [|new rest IH]; intros current Hsep.
  - reflexivity.
  - apply chain_cons in Hsep. destruct Hsep as [Hgap Hsep]. simpl.
    destruct (Z.leb_spec (range_start new) (range_end current + 1)); [lia|].
    now rewrite IH.
Qed.

Lemma spec_merge_Forall (P : HighlightRange -> Prop) :
  (forall a b, P a -> P b ->
     P (range_start a, Z.max (range_end a) (range_end b))) ->
  forall rest current,
    P current -> Forall P rest -> Forall P (spec_merge current rest).
Proof.
  intros Hmax. induction rest as [|new rest IH]; intros current Hc Hrest.
  - simpl. auto.
  - inversion Hrest as [|? ? Hnew Hrest']; subst. simpl.
    destruct (range_start new <=? range_end current + 1).
    + apply IH; auto.
    + constructor; auto.
Qed.

Lemma mergedHighlights_nonempty (l : list HighlightRange) :
  l <> [] -> mergedHighlights l <> [].
Proof.
  destruct l as [|first rest]; [congruence|]. intros _.
  rewrite mergedHighlights_cons.
  destruct (spec_merge_head first rest) as (e & tl & ->). discriminate.
Qed.

Lemma sortedHighlights_nonempty (l : list HighlightRange) :
  l <> [] -> sortedHighlights l <> [].
Proof.
  intros Hl Hs. apply Hl, length_zero_iff_nil.
  unfold sortedHighlights in Hs.
  rewrite <- (length_Array_sort by_start), Hs. reflexivity.
Qed.

(** ** The emission *)

Section Emission.
Variable text : string.
Local Notation "'len'" := (Z.of_nat (String.length text)).

(** The [forEach] and the test after it, from any state, add to [parts]
    what the specification's emission gives from the cursor. *)
Lemma fold_emit_step (merged : list HighlightRange) (parts : list piece)
  (lastIndex : Z) :
  (let '(parts', lastIndex') := fold_left emit_step merged (parts, lastIndex) in
   if lastIndex' <? len then parts' ++ [Piece plain lastIndex' None]
   else parts')
  = parts ++ spec_emission text lastIndex merged.
Proof.
  revert parts lastIndex.
  induction merged as [|[start end_] merged IH]; intros parts lastIndex.
  - simpl. destruct (lastIndex <? len); [reflexivity|].
    now rewrite app_nil_r.
  - simpl fold_left.
    change (emit_step (parts, lastIndex) (start, end_))
      with ((if start >? lastIndex
             then parts ++ [Piece plain lastIndex (Some start)]
             else parts)
            ++ [Piece highlighted start (Some (end_ + 1))], end_ + 1).
    rewrite IH. simpl spec_emission. unfold range_start, range_end. simpl.
    destruct (start >? lastIndex); simpl.
    + now rewrite <- !app_assoc.
    + now rewrite <- app_assoc.
Qed.

Lemma emit_pieces_spec (merged : list HighlightRange) :
  emit_pieces text merged = spec_emission text 0 merged.
Proof. unfold emit_pieces. apply (fold_emit_step merged [] 0). Qed.

(** When the next range starts after the cursor, or there is none, the
    emission from the cursor begins with a plain piece at the cursor,
    or is empty. *)
Lemma spec_emission_head (cursor : Z) (ranges : list HighlightRange) :
  (forall r, head ranges = Some r -> cursor < range_start r) ->
  spec_emission text cursor ranges = []
  \/ exists e tl, spec_emission text cursor ranges = Piece plain cursor e :: tl.
Proof.
  intros Hhead. destruct ranges as [|r ranges]; simpl.
  - destruct (cursor <? _); eauto.
  - specialize (Hhead r eq_refl).
    destruct (Z.gtb_spec (range_start r) cursor); [|lia].
    right. simpl. eauto.
Qed.

(** When the ranges are apart, each piece ends where the next one
    starts, and plain and highlighted pieces alternate. *)
Lemma spec_emission_linked (cursor : Z) (ranges : list HighlightRange) :
  separated ranges -> chain linked (spec_emission text cursor ranges).
Proof.
  unfold separated. revert cursor.
  induction ranges as [|r ranges IH]; intros cursor Hsep.
  - simpl. destruct (cursor <? _); simpl; tauto.
  - destruct Hsep as [Hgap Hsep]. specialize (IH (range_end r + 1) Hsep).
    assert (chain linked
              (Piece highlighted (range_start r) (Some (range_end r + 1))
               :: spec_emission text (range_end r + 1) ranges)) as Hmark.
    { destruct (spec_emission_head (range_end r + 1) ranges)
        as [Hnil | (e & tl & Hcons)].
      - intros r' Hr'. destruct ranges; simplify_eq/=. exact Hgap.
      - rewrite Hnil. simpl. tauto.
      - rewrite Hcons in IH |- *. apply chain_cons. split; [|exact IH].
        split; simpl; congruence. }
    simpl spec_emission. destruct (range_start r >? cursor); [|exact Hmark].
    apply chain_cons. split; [|exact Hmark].
    split; simpl; congruence.
Qed.

Lemma shown_render_cons (p : piece) (ps : list piece) :
  shown (render text <$> p :: ps)
  = String.app (slice text (piece_start p) (piece_end p))
      (shown (render text <$> ps)).
Proof. reflexivity. Qed.

Lemma clamp_index_nonneg (i : Z) : 0 <= i -> clamp_index len i = Z.min i len.
Proof. intros H0. unfold clamp_index. destruct (Z.ltb_spec i 0); lia. Qed.

(** With arguments that are not negative and in order, [slice] takes
    the characters between them that the text has. *)
Lemma slice_ordered (a b : Z) :
  0 <= a -> a <= b ->
  slice text a (Some b)
  = substring (Z.to_nat (Z.min a len))
      (Z.to_nat (Z.min b len - Z.min a len)) text.
Proof.
  intros Ha Hab. unfold slice, slice_bounds.
  rewrite !clamp_index_nonneg by lia.
  destruct (Z.geb_spec (Z.min a len) (Z.min b len)); [|reflexivity].
  replace (Z.to_nat (Z.min b len - Z.min a len)) with 0%nat by lia.
  now rewrite substring_nothing.
Qed.

Lemma index_range_ordered (k : kind) (a b : Z) :
  0 <= a -> a <= b ->
  index_range text (Piece k a (Some b)) = (Z.min a len, Z.min b len).
Proof.
  intros. unfold index_range, slice_bounds. simpl.
  now rewrite !clamp_index_nonneg by lia.
Qed.

Lemma index_range_rest (k : kind) (a : Z) :
  0 <= a -> index_range text (Piece k a None) = (Z.min a len, len).
Proof.
  intros. unfold index_range, slice_bounds. simpl.
  now rewrite !clamp_index_nonneg by lia.
Qed.

(** The text of a segment is the text at its index interval. *)
Lemma content_index_range (p : piece) :
  content (render text p)
  = substring (Z.to_nat (index_range text p).1)
      (Z.to_nat ((index_range text p).2 - (index_range text p).1)) text.
Proof.
  unfold render, index_range, slice, slice_bounds. simpl.
  set (from := clamp_index _ (piece_start p)).
  set (to := match piece_end p with Some e => _ | None => _ end).
  destruct (Z.geb_spec from to); [|reflexivity].
  replace (Z.to_nat (to - from)) with 0%nat by lia.
  now rewrite substring_nothing.
Qed.

(** On ranges that can be walked, the emitted pieces show the text from
    the cursor to its end. *)
Lemma shown_spec_emission (cursor : Z) (ranges : list HighlightRange) :
  walkable cursor ranges -> 0 <= cursor ->
  shown (render text <$> spec_emission text cursor ranges)
  = substring (Z.to_nat (Z.min cursor len))
      (Z.to_nat (len - Z.min cursor len)) text.
Proof.
  revert cursor. induction ranges as [|[s e] ranges IH];
    intros cursor Hwalk H0.
  - simpl. destruct (Z.ltb_spec cursor len).
    + rewrite shown_render_cons. simpl.
      unfold slice, slice_bounds.
      rewrite clamp_index_nonneg by lia.
      destruct (Z.geb_spec (Z.min cursor len) len); [lia|].
      apply string_app_empty_r.
    + replace (Z.to_nat (len - Z.min cursor len)) with 0%nat by lia.
      now rewrite substring_nothing.
  - destruct Hwalk as (Hcs & Hse & Hwalk).
    unfold range_start, range_end in *. simpl in *.
    specialize (IH (e + 1) Hwalk ltac:(lia)).
    assert (shown (render text <$>
              (Piece highlighted s (Some (e + 1))
               :: spec_emission text (e + 1) ranges))
            = substring (Z.to_nat (Z.min s len))
                (Z.to_nat (len - Z.min s len)) text) as Hmark.
    { rewrite shown_render_cons, IH. simpl piece_start. simpl piece_end.
      rewrite slice_ordered by lia.
      replace (Z.to_nat (len - Z.min s len))
        with (Z.to_nat (Z.min (e + 1) len - Z.min s len)
              + Z.to_nat (len - Z.min (e + 1) len))%nat by lia.
      rewrite substring_split. do 3 f_equal. lia. }
    destruct (Z.gtb_spec s cursor).
    + simpl app. rewrite shown_render_cons, Hmark.
      simpl piece_start. simpl piece_end.
      rewrite slice_ordered by lia.
      replace (Z.to_nat (len - Z.min cursor len))
        with (Z.to_nat (Z.min s len - Z.min cursor len)
              + Z.to_nat (len - Z.min s len))%nat by lia.
      rewrite substring_split. do 2 f_equal. lia.
    + assert (s = cursor) as -> by lia. exact Hmark.
Qed.

(** On ranges that can be walked, the index intervals of the pieces
    cover the text from the cursor to its end, one after the other. *)
Lemma tiles_spec_emission (cursor : Z) (ranges : list HighlightRange) :
  walkable cursor ranges -> 0 <= cursor ->
  tiles (Z.min cursor len) len
    (index_range text <$> spec_emission text cursor ranges).
Proof.
  revert cursor. induction ranges as [|[s e] ranges IH];
    intros cursor Hwalk H0.
  - simpl. destruct (Z.ltb_spec cursor len).
    + rewrite fmap_cons, index_range_rest by lia. simpl. lia.
    + simpl. lia.
  - destruct Hwalk as (Hcs & Hse & Hwalk).
    unfold range_start, range_end in *. simpl in *.
    specialize (IH (e + 1) Hwalk ltac:(lia)).
    destruct (Z.gtb_spec s cursor); simpl app.
    + rewrite !fmap_cons, !index_range_ordered by lia. simpl.
      intuition lia.
    + rewrite !fmap_cons, !index_range_ordered by lia. simpl.
      intuition lia.
Qed.

Lemma slice_inside_nonempty (a b : Z) :
  0 <= a -> a < b -> b <= len -> slice text a (Some b) <> EmptyString.
Proof.
  intros H0 Hab Hb Heq. rewrite slice_ordered in Heq by lia.
  apply (f_equal String.length) in Heq.
  rewrite length_substring in Heq by lia.
  simpl in Heq. lia.
Qed.

Lemma slice_rest_nonempty (a : Z) :
  0 <= a -> a < len -> slice text a None <> EmptyString.
Proof.
  intros H0 Hab Heq. unfold slice, slice_bounds in Heq. 
  rewrite clamp_index_nonneg in Heq by lia.
  destruct (Z.geb_spec (Z.min a len) len); [lia|].
  apply (f_equal String.length) in Heq.
  rewrite length_substring in Heq by lia.
  simpl in Heq. lia.
Qed.

(** On ranges that can be walked and that end inside the text, no
    emitted segment is empty. *)
Lemma nonempty_spec_emission (cursor : Z) (ranges : list HighlightRange) :
  walkable cursor ranges -> Forall (fun r => range_end r < len) ranges ->
  0 <= cursor ->
  Forall (fun s => content s <> EmptyString)
    (render text <$> spec_emission text cursor ranges).
Proof.
  revert cursor. induction ranges as [|[s e] ranges IH];
    intros cursor Hwalk Hin H0.
  - simpl. destruct (Z.ltb_spec cursor len); constructor.
    + now apply slice_rest_nonempty.
    + constructor.
  - destruct Hwalk as (Hcs & Hse & Hwalk).
    inversion Hin as [|? ? He Hin']; subst.
    unfold range_start, range_end in *. simpl in *.
    specialize (IH (e + 1) Hwalk Hin' ltac:(lia)).
    destruct (Z.gtb_spec s cursor); simpl app; rewrite ?fmap_cons;
      repeat constructor; simpl; auto; apply slice_inside_nonempty; lia.
Qed.

End Emission.

Lemma walkable_intro (cursor : Z) (ranges : list HighlightRange) :
  Forall ordered_range ranges -> separated ranges ->
  (forall r, head ranges = Some r -> cursor <= range_start r) ->
  walkable cursor ranges.
Proof.
  unfold separated. revert cursor.
  induction ranges as [|r ranges IH]; intros cursor Hord Hsep Hhead.
  - exact I.
  - inversion Hord as [|? ? (H0 & Hse) Hord']; subst.
    destruct Hsep as [Hgap Hsep]. simpl.
    repeat split; auto.
    apply IH; auto.
    intros r' Hr'. destruct ranges; simplify_eq/=. lia.
Qed.

Lemma ordered_range_max (a b : HighlightRange) :
  ordered_range a -> ordered_range b ->
  ordered_range (range_start a, Z.max (range_end a) (range_end b)).
Proof. unfold ordered_range, range_start, range_end. simpl. lia. Qed.

Lemma range_end_max (len : Z) (a b : HighlightRange) :
  range_end a < len -> range_end b < len ->
  range_end (range_start a, Z.max (range_end a) (range_end b)) < len.
Proof. unfold range_end. simpl. lia. Qed.

Lemma mergedHighlights_Forall (P : HighlightRange -> Prop) :
  (forall a b, P a -> P b ->
     P (range_start a, Z.max (range_end a) (range_end b))) ->
  forall l, Forall P l -> Forall P (mergedHighlights (sortedHighlights l)).
Proof.
  intros Hmax l Hl.
  assert (Forall P (sortedHighlights l)) as Hs.
  { unfold sortedHighlights. now rewrite Array_sort_perm. }
  destruct (sortedHighlights l) as [|first rest]; [constructor|].
  rewrite mergedHighlights_cons. inversion Hs; subst.
  now apply spec_merge_Forall.
Qed.

(** The merged ranges of ordered ranges can be walked from the start of
    the text. *)
Lemma walkable_merged (highlights : list HighlightRange) :
  Forall ordered_range highlights ->
  walkable 0 (mergedHighlights (sortedHighlights highlights)).
Proof.
  intros Hord.
  pose proof (mergedHighlights_Forall _ ordered_range_max _ Hord) as Hm.
  apply walkable_intro.
  - exact Hm.
  - apply mergedHighlights_separated.
  - intros r Hr. destruct (mergedHighlights _) as [|r' l]; simplify_eq/=.
    inversion Hm as [|? ? Hv _]; subst. apply Hv.
Qed.

Lemma valid_range_ordered (text : string) (r : HighlightRange) :
  valid_range text r -> ordered_range r.
Proof. unfold valid_range, ordered_range. tauto. Qed.

Lemma chain_fmap {A B : Type} (R : A -> A -> Prop) (R' : B -> B -> Prop)
  (f : A -> B) (l : list A) :
  (forall a b, R a b -> R' (f a) (f b)) -> chain R l -> chain R' (f <$> l).
Proof.
  intros Hf. induction l as [|a l IH]; [trivial|].
  intros [Ha Hl]. split; [|auto].
  destruct l as [|b l]; simpl; auto.
Qed.

Lemma linked_no_overlap (text : string) (p q : piece) :
  linked p q -> no_overlap (index_range text p) (index_range text q).
Proof.
  intros [Hend _] i. unfold index_range, slice_bounds. rewrite Hend. simpl. lia.
Qed.

Lemma spec_emission_has_mark (text : string) (cursor : Z)
  (ranges : list HighlightRange) :
  ranges <> [] ->
  Exists (fun p => piece_kind p = highlighted) (spec_emission text cursor ranges).
Proof.
  destruct ranges as [|r ranges]; [congruence|]. intros _. simpl.
  apply Exists_app. right. now constructor.
Qed.

Lemma pieces_spec (text : string) (highlights : list HighlightRange) :
  pieces text highlights
  = spec_emission text 0 (mergedHighlights (sortedHighlights highlights)).
Proof. apply emit_pieces_spec. Qed.

Lemma pieces_linked (text : string) (highlights : list HighlightRange) :
  chain linked (pieces text highlights).
Proof.
  rewrite pieces_spec. apply spec_emission_linked, mergedHighlights_separated.
Qed.

(** ** The run on a store *)

Lemma bind_Some {A B : Type} (m : M A) (f : A -> M B) (h h1 : heap) (a : A) :
  m h = Some (a, h1) -> (m ≫= f) h = f a h1.
Proof. intros Hm. unfold mbind, M_bind. now rewrite Hm. Qed.

Lemma lookup_snoc_length {A : Type} (l : list A) (x : A) :
  (l ++ [x]) !! length l = Some x.
Proof. now apply list_lookup_middle. Qed.

Lemma insert_snoc_length {A : Type} (l : list A) (x y : A) :
  <[length l := y]> (l ++ [x]) = l ++ [y].
Proof.
  replace (length l) with (length l + 0)%nat by lia.
  now rewrite insert_app_r.
Qed.

Lemma read_array_run (h : heap) (a : loc) (l : list loc) :
  arrays h !! a = Some l -> read_array a h = Some (l, h).
Proof. intros Ha. unfold read_array. now rewrite Ha. Qed.

Lemma new_array_run (h : heap) (l : list loc) :
  new_array l h = Some (length (arrays h), Heap (tuples h) (arrays h ++ [l])).
Proof. reflexivity. Qed.

Lemma new_tuple_run (h : heap) (v : HighlightRange) :
  new_tuple v h = Some (length (tuples h), Heap (tuples h ++ [v]) (arrays h)).
Proof. reflexivity. Qed.

Lemma read_tuple_run (h : heap) (r : loc) (v : HighlightRange) :
  points_to (tuples h) r v -> read_tuple r h = Some (v, h).
Proof. intros Hr. unfold read_tuple. now rewrite Hr. Qed.

Lemma push_run (T : list HighlightRange) (A : list (list loc))
  (l : list loc) (r : loc) :
  push (length A) r (Heap T (A ++ [l])) = Some (tt, Heap T (A ++ [l ++ [r]])).
Proof.
  unfold push.
  rewrite (bind_Some _ _ _ _ _
             (read_array_run (Heap T (A ++ [l])) _ _ (lookup_snoc_length A l))).
  unfold write_array. simpl. rewrite lookup_snoc_length.
  now rewrite insert_snoc_length.
Qed.

Lemma by_startM_run (h : heap) (a b : loc) (va vb : HighlightRange) :
  points_to (tuples h) a va -> points_to (tuples h) b vb ->
  by_startM a b h = Some (by_start va vb, h).
Proof.
  intros Ha Hb. unfold by_startM.
  rewrite (bind_Some _ _ _ _ _ (read_tuple_run _ _ _ Ha)).
  rewrite (bind_Some _ _ _ _ _ (read_tuple_run _ _ _ Hb)).
  reflexivity.
Qed.

(** Sorting the references with the comparator that reads the store
    sorts the ranges they refer to, and leaves the store as it is. *)
Lemma insert_sortedM_run (h : heap) (x : loc) (vx : HighlightRange)
  (l : list loc) (vl : list HighlightRange) :
  points_to (tuples h) x vx -> Forall2 (points_to (tuples h)) l vl ->
  exists l', insert_sortedM by_startM x l h = Some (l', h)
             /\ Forall2 (points_to (tuples h)) l' (insert_sorted by_start vx vl).
Proof.
  intros Hx Hl. induction Hl as [|y vy l vl Hy Hl IH].
  - exists [x]. split; [reflexivity|]. now repeat constructor.
  - simpl insert_sortedM.
    rewrite (bind_Some _ _ _ _ _ (by_startM_run _ _ _ _ _ Hx Hy)).
    simpl insert_sorted. destruct (by_start vx vy <=? 0).
    + exists (x :: y :: l). split; [reflexivity|]. now repeat constructor.
    + destruct IH as (l' & Hrun & Hl').
      exists (y :: l'). rewrite (bind_Some _ _ _ _ _ Hrun).
      split; [reflexivity|]. now constructor.
Qed.

Lemma Array_sortM_run (h : heap) (l : list loc) (vl : list HighlightRange) :
  Forall2 (points_to (tuples h)) l vl ->
  exists l', Array_sortM by_startM l h = Some (l', h)
             /\ Forall2 (points_to (tuples h)) l' (Array_sort by_start vl).
Proof.
  intros Hl. induction Hl as [|x vx l vl Hx Hl IH].
  - exists []. split; [reflexivity | constructor].
  - destruct IH as (s & Hrun & Hs). simpl Array_sortM.
    rewrite (bind_Some _ _ _ _ _ Hrun).
    apply (insert_sortedM_run h x vx s _ Hx Hs).
Qed.

Lemma last_seq (n k : nat) : last (seq n (S k)) = Some (n + k)%nat.
Proof. rewrite seq_S. apply last_snoc. Qed.

Lemma seq_points_to (T mv : list HighlightRange) :
  Forall2 (points_to (T ++ mv)) (seq (length T) (length mv)) mv.
Proof.
  apply Forall2_same_length_lookup_2; [now rewrite length_seq|].
  intros i r v Hr Hv. apply lookup_seq in Hr as [-> _].
  unfold points_to. now rewrite lookup_app_r, Nat.add_comm, Nat.add_sub by lia.
Qed.

(** One turn of the merge loop on a store whose new two-element arrays
    are the merged ranges [acc], the array [mergedHighlights] holding the
    references to them: the new arrays become [merge_step acc v], and
    nothing else changes. *)
Lemma merge_bodyM_run (T acc : list HighlightRange) (A : list (list loc))
  (r : loc) (v : HighlightRange) :
  points_to T r v ->
  merge_bodyM (length A) r
    (Heap (T ++ acc) (A ++ [seq (length T) (length acc)]))
  = Some (tt, Heap (T ++ merge_step acc v)
                (A ++ [seq (length T) (length (merge_step acc v))])).
Proof.
  intros Hr. unfold merge_bodyM.
  assert (points_to (T ++ acc) r v) as Hr'.
  { unfold points_to in *. rewrite lookup_app_l; [assumption|].
    eapply lookup_lt_Some, Hr. }
  rewrite (bind_Some _ _ _ _ _
             (read_array_run (Heap (T ++ acc) _) _ _ (lookup_snoc_length A _))).
  destruct acc as [|current finalized _] using rev_ind.
  - change (last (seq (length T) (length (@nil HighlightRange))))
      with (@None loc). cbv iota.
    rewrite (bind_Some _ _ _ _ _ (read_tuple_run (Heap _ _) _ _ Hr')).
    rewrite (bind_Some _ _ _ _ _ (new_tuple_run (Heap _ _) v)).
    simpl tuples. simpl arrays.
    rewrite push_run, app_nil_r. reflexivity.
  - rewrite length_app. simpl length. rewrite Nat.add_1_r, last_seq.
    rewrite (bind_Some _ _ _ _ _ (read_tuple_run (Heap _ _) _ _ Hr')).
    assert (points_to (T ++ finalized ++ [current])
              (length T + length finalized)%nat current) as Hlast.
    { unfold points_to. rewrite app_assoc, <- length_app.
      apply lookup_snoc_length. }
    rewrite (bind_Some _ _ _ _ _ (read_tuple_run (Heap _ _) _ _ Hlast)).
    rewrite merge_step_snoc.
    destruct (range_start v <=? range_end current + 1).
    + unfold write_tuple. simpl tuples. rewrite Hlast. simpl arrays.
      rewrite (app_assoc T), <- (length_app T), insert_snoc_length.
      rewrite <- app_assoc, !length_app. reflexivity.
    + rewrite (bind_Some _ _ _ _ _ (new_tuple_run (Heap _ _) v)).
      simpl tuples. simpl arrays.
      rewrite push_run. rewrite <- !app_assoc. simpl app.
      rewrite !length_app. simpl length.
      replace (length finalized + 2)%nat with (S (S (length finalized))) by lia.
      rewrite (seq_S (S (length finalized)) (length T)), !Nat.add_1_r.
      reflexivity.
Qed.

Lemma for_each_merge_run (T : list HighlightRange) (A : list (list loc))
  (ranges : list loc) (vals : list HighlightRange) :
  Forall2 (points_to T) ranges vals ->
  forall acc,
    for_each ranges (merge_bodyM (length A))
      (Heap (T ++ acc) (A ++ [seq (length T) (length acc)]))
    = Some (tt, Heap (T ++ fold_left merge_step vals acc)
                  (A ++ [seq (length T)
                           (length (fold_left merge_step vals acc))])).
Proof.
  induction 1 as [|r v ranges vals Hr _ IH]; intros acc.
  - reflexivity.
  - simpl for_each.
    rewrite (bind_Some _ _ _ _ _ (merge_bodyM_run T acc A r v Hr)).
    apply IH.
Qed.

Lemma fold_each_emit_run (h : heap) (ranges : list loc)
  (vals : list HighlightRange) :
  Forall2 (points_to (tuples h)) ranges vals ->
  forall st,
    fold_each emit_bodyM ranges st h = Some (fold_left emit_step vals st, h).
Proof.
  induction 1 as [|r v ranges vals Hr _ IH]; intros st.
  - reflexivity.
  - simpl fold_each.
    assert (emit_bodyM st r h = Some (emit_step st v, h)) as Hbody.
    { unfold emit_bodyM.
      now rewrite (bind_Some _ _ _ _ _ (read_tuple_run h r v Hr)). }
    rewrite (bind_Some _ _ _ _ _ Hbody).
    apply IH.
Qed.

(** A run on a store in which the array and its ranges exist returns what
    the pure reading returns on the ranges, and a store that has the
    objects of the first, unchanged, and new objects after them. *)
Lemma HighlightedTextM_run (text : string) (h : heap) (a : loc)
  (hl : list loc) (vals : list HighlightRange) :
  arrays h !! a = Some hl -> Forall2 (points_to (tuples h)) hl vals ->
  exists T' A',
    HighlightedTextM text (Some a) h
    = Some (HighlightedText text (Some vals),
            Heap (tuples h ++ T') (arrays h ++ A')).
Proof.
  intros Ha Hhl. destruct h as [T A]. simpl in Ha, Hhl.
  unfold HighlightedTextM, HighlightedText. simpl tuples. simpl arrays.
  rewrite (bind_Some _ _ _ _ _ (read_array_run (Heap T A) a hl Ha)).
  rewrite <- (Forall2_length _ _ _ Hhl).
  destruct (length hl =? 0)%nat.
  { exists [], []. now rewrite !app_nil_r. }
  rewrite (bind_Some _ _ _ _ _ (new_array_run (Heap T A) hl)).
  simpl tuples. simpl arrays.
  destruct (Array_sortM_run (Heap T (A ++ [hl])) hl vals Hhl)
    as (sorted & Hsort & Hsorted).
  simpl in Hsorted.
  assert (sort_in_place by_startM (length A) (Heap T (A ++ [hl]))
          = Some (tt, Heap T (A ++ [sorted]))) as Hsip.
  { unfold sort_in_place.
    rewrite (bind_Some _ _ _ _ _
               (read_array_run (Heap T (A ++ [hl])) _ _ (lookup_snoc_length A hl))).
    rewrite (bind_Some _ _ _ _ _ Hsort).
    unfold write_array. simpl. rewrite lookup_snoc_length.
    now rewrite insert_snoc_length. }
  rewrite (bind_Some _ _ _ _ _ Hsip).
  rewrite (bind_Some _ _ _ _ _ (new_array_run (Heap T (A ++ [sorted])) [])).
  simpl tuples. simpl arrays.
  assert (((A ++ [sorted]) ++ [[]]) !! length A = Some sorted) as Hread.
  { rewrite lookup_app_l by (rewrite length_app; simpl; lia).
    apply lookup_snoc_length. }
  rewrite (bind_Some _ _ _ _ _
             (read_array_run (Heap T ((A ++ [sorted]) ++ [[]])) _ _ Hread)).
  pose proof (for_each_merge_run T (A ++ [sorted]) sorted _ Hsorted [])
    as Hmerge.
  rewrite app_nil_r in Hmerge. simpl length in Hmerge. simpl seq in Hmerge.
  rewrite (bind_Some _ _ _ _ _ Hmerge).
  fold (sortedHighlights vals). fold (mergedHighlights (sortedHighlights vals)).
  set (mv := mergedHighlights (sortedHighlights vals)).
  rewrite (bind_Some _ _ _ _ _
             (read_array_run (Heap (T ++ mv) _) _ _ (lookup_snoc_length _ _))).
  rewrite (bind_Some _ _ _ _ _
             (fold_each_emit_run (Heap (T ++ mv) _) _ _
                (seq_points_to T mv) ([], 0))).
  exists mv, [sorted; seq (length T) (length mv)].
  unfold pieces, emit_pieces. fold mv.
  destruct (fold_left emit_step mv ([], 0)) as [parts lastIndex].
  rewrite <- app_assoc. reflexivity.
Qed.

(** The content of each segment is the text at its index interval. *)
Lemma contents_at_index_ranges (text : string)
  (highlights : option (list HighlightRange)) :
  content <$> HighlightedText text highlights
  = (fun i => substring (Z.to_nat i.1) (Z.to_nat (i.2 - i.1)) text)
    <$> index_ranges text highlights.
Proof.
  assert (content <$> [Segment plain text]
          = (fun i => substring (Z.to_nat i.1) (Z.to_nat (i.2 - i.1)) text)
            <$> [(0, Z.of_nat (String.length text))]) as Hwhole.
  { simpl. rewrite Z.sub_0_r, Nat2Z.id. simpl. now rewrite substring_whole. }
  destruct highlights as [hl|]; [|exact Hwhole].
  unfold HighlightedText, index_ranges.
  destruct (length hl =? 0)%nat; [exact Hwhole|].
  rewrite <- !list_fmap_compose. apply list_fmap_ext.
  intros _ p _. apply content_index_range.
Qed.

(** * The claims *)

(** C1 (as amended).  For every text and every list of ranges that each
    have [0 <= start <= end] (or without a list), the contents of the
    emitted segments, put together in emission order, are the text; the
    index intervals of the segments cover the text once from [0] to its
    length, each starting where the one before it ends; and the content
    of each segment is the text at its interval. *)
Theorem coverage_of_ordered_ranges (text : string)
  (highlights : option (list HighlightRange)) :
  Forall ordered_range (default [] highlights) ->
  shown (HighlightedText text highlights) = text
  /\ tiles 0 (Z.of_nat (String.length text)) (index_ranges text highlights)
  /\ content <$> HighlightedText text highlights
     = (fun i => substring (Z.to_nat i.1) (Z.to_nat (i.2 - i.1)) text)
       <$> index_ranges text highlights.
Proof.
  intros Hord.
  split; [|split; [|apply contents_at_index_ranges]].
  - destruct highlights as [hl|]; [|apply string_app_empty_r].
    unfold HighlightedText.
    destruct (length hl =? 0)%nat; [apply string_app_empty_r|].
    rewrite pieces_spec, shown_spec_emission
      by (try apply walkable_merged; auto; lia).
    rewrite Z.min_l, Z.sub_0_r, Nat2Z.id by lia. apply substring_whole.
  - assert (tiles 0 (Z.of_nat (String.length text))
              [(0, Z.of_nat (String.length text))]) as Hwhole
      by (simpl; lia).
    destruct highlights as [hl|]; [|exact Hwhole].
    unfold index_ranges. destruct (length hl =? 0)%nat; [exact Hwhole|].
    rewrite pieces_spec.
    pose proof (tiles_spec_emission text 0 _ (walkable_merged hl Hord)
                  ltac:(lia)) as Ht.
    now rewrite Z.min_l in Ht by lia.
Qed.

(** C1, as stated, fails on an inverted range: for the text [abc] and the
    range [[2, 0]] the segments are [ab], the empty string and [bc]. *)
Lemma coverage_fails_on_inverted_range :
  HighlightedText "abc" (Some [(2, 0)])
  = [Segment plain "ab"; Segment highlighted ""; Segment plain "bc"]
  /\ shown (HighlightedText "abc" (Some [(2, 0)])) <> "abc".
Proof. split; [reflexivity | discriminate]. Qed.



(** C4.  For every input, two segments that follow each other show index
    intervals of the text that share no index, the content of each
    segment being the text at its interval.  The ranges [[0, 2]] and
    [[4, 5]] stay two highlighted segments, with the one character at
    index 3 as a plain segment between them. *)
Theorem consecutive_segments_do_not_overlap :
  (forall text highlights,
     consecutive no_overlap (index_ranges text highlights)
     /\ content <$> HighlightedText text highlights
        = (fun i => substring (Z.to_nat i.1) (Z.to_nat (i.2 - i.1)) text)
          <$> index_ranges text highlights)
  /\ HighlightedText "abcdef" (Some [(0, 2); (4, 5)])
     = [Segment highlighted "abc"; Segment plain "d"; Segment highlighted "ef"]
  /\ index_ranges "abcdef" (Some [(0, 2); (4, 5)]) = [(0, 3); (3, 4); (4, 6)].
Proof.
  split; [|split; reflexivity].
  intros text highlights. split; [|apply contents_at_index_ranges].
  apply chain_consecutive.
  destruct highlights as [hl|]; [|simpl; tauto].
  unfold index_ranges. destruct (length hl =? 0)%nat; [simpl; tauto|].
  eapply chain_fmap; [|apply pieces_linked].
  intros p q. apply linked_no_overlap.
Qed.

(** C5.  Without a list of highlights, or with an empty one, the output
    is one plain segment whose content is the whole text; for [hello] and
    the empty list it is the plain segment [hello]. *)
Theorem no_highlights_one_plain_segment :
  (forall text, HighlightedText text None = [Segment plain text])
  /\ (forall text, HighlightedText text (Some []) = [Segment plain text])
  /\ HighlightedText "hello" (Some []) = [Segment plain "hello"].
Proof. repeat split; reflexivity. Qed.




(** C7 (as amended).  For an empty text and a list of ranges that is not
    empty, every emitted segment has empty content, and a highlighted
    segment is emitted. *)
Theorem empty_text_segments_are_empty (highlights : list HighlightRange) :
  highlights <> [] ->
  Forall (fun s => content s = EmptyString)
    (HighlightedText EmptyString (Some highlights))
  /\ Exists (fun s => seg_kind s = highlighted)
       (HighlightedText EmptyString (Some highlights)).
Proof.
  intros Hne. unfold HighlightedText.
  destruct highlights as [|first rest]; [congruence|]. simpl Nat.eqb. cbv iota.
  split.
  - apply Forall_fmap, Forall_true. intros p. apply slice_empty_text.
  - apply Exists_fmap. rewrite pieces_spec.
    eapply Exists_impl; [apply spec_emission_has_mark|auto].
    apply mergedHighlights_nonempty, sortedHighlights_nonempty. discriminate.
Qed.

Lemma empty_text_segments_are_empty_witness :
  [(3, 5)] <> []
  /\ Forall (fun s => content s = EmptyString)
       (HighlightedText EmptyString (Some [(3, 5)]))
  /\ Exists (fun s => seg_kind s = highlighted)
       (HighlightedText EmptyString (Some [(3, 5)])).
Proof.
  assert ([(3, 5)] <> @nil HighlightRange) as Hne by discriminate.
  split; [exact Hne|]. exact (empty_text_segments_are_empty _ Hne).
Defined.

(** C7, as stated, fails: for the empty text and the range [[0, 0]] the
    output is not empty, it has one highlighted segment (of empty
    content). *)
Lemma empty_text_emits_a_segment :
  HighlightedText EmptyString (Some [(0, 0)]) = [Segment highlighted EmptyString]
  /\ [(0, 0)] <> @nil HighlightRange
  /\ HighlightedText EmptyString (Some [(0, 0)]) <> [].
Proof. split; [reflexivity|]. split; discriminate. Qed.

(** C10 (as amended).  For every input whose ranges satisfy
    [0 <= start <= end < text.length], any two merged ranges that follow
    each other are more than one index apart; the emitted segments
    alternate in kind, no two that follow each other being both plain or
    both highlighted; and when the text is not empty, every emitted
    segment has content that is not empty. *)
Theorem valid_ranges_alternate_nonempty (text : string)
  (highlights : option (list HighlightRange)) :
  Forall (valid_range text) (default [] highlights) ->
  separated (mergedHighlights (sortedHighlights (default [] highlights)))
  /\ consecutive (fun a b => seg_kind a <> seg_kind b)
       (HighlightedText text highlights)
  /\ (text <> EmptyString ->
      Forall (fun s => content s <> EmptyString)
        (HighlightedText text highlights)).
Proof.
  intros Hvalid. split; [apply mergedHighlights_separated|].
  assert (consecutive (fun a b => seg_kind a <> seg_kind b)
            [Segment plain text]
          /\ (text <> EmptyString ->
              Forall (fun s => content s <> EmptyString) [Segment plain text]))
    as Hwhole.
  { split; [apply chain_consecutive; simpl; tauto|].
    intros Hne. repeat constructor. exact Hne. }
  destruct highlights as [hl|]; [|exact Hwhole].
  unfold HighlightedText. destruct (length hl =? 0)%nat; [exact Hwhole|].
  simpl in Hvalid. split.
  - apply chain_consecutive.
    eapply chain_fmap; [|apply pieces_linked].
    intros p q [_ Hkind]. exact Hkind.
  - intros _. rewrite pieces_spec. apply nonempty_spec_emission.
    + apply walkable_merged.
      eapply Forall_impl; [exact Hvalid|]. apply valid_range_ordered.
    + apply (mergedHighlights_Forall
               (fun r => range_end r < Z.of_nat (String.length text))).
      * intros a b. apply range_end_max.
      * eapply Forall_impl; [exact Hvalid|]. intros r Hr. apply Hr.
    + lia.
Qed.

Lemma valid_ranges_alternate_nonempty_witness :
  Forall (valid_range "abcdefg") (default [] (Some [(4, 5); (0, 2); (1, 2)]))
  /\ "abcdefg" <> EmptyString
  /\ consecutive (fun a b => seg_kind a <> seg_kind b)
       (HighlightedText "abcdefg" (Some [(4, 5); (0, 2); (1, 2)]))
  /\ Forall (fun s => content s <> EmptyString)
       (HighlightedText "abcdefg" (Some [(4, 5); (0, 2); (1, 2)])).
Proof.
  assert (Forall (valid_range "abcdefg")
            (default [] (Some [(4, 5); (0, 2); (1, 2)]))) as Hvalid
    by (repeat constructor; simpl; lia).
  assert ("abcdefg" <> EmptyString) as Hne by discriminate.
  split; [exact Hvalid|]. split; [exact Hne|].
  destruct (valid_ranges_alternate_nonempty _ _ Hvalid)
    as (_ & Halt & Hnonempty).
  split; [exact Halt | exact (Hnonempty Hne)].
Defined.

(** C10, as stated, fails on the empty text: with no ranges the invariant
    holds of all of them, and the one plain segment emitted is empty. *)
Lemma empty_text_plain_segment_is_empty :
  Forall (valid_range EmptyString) (default [] (Some []))
  /\ HighlightedText EmptyString (Some []) = [Segment plain EmptyString]
  /\ ~ Forall (fun s => content s <> EmptyString)
         (HighlightedText EmptyString (Some [])).
Proof.
  split; [constructor|]. split; [reflexivity|].
  intros H. inversion H as [|? ? Hhead _]; subst. now apply Hhead.
Qed.

Lemma coverage_of_ordered_ranges_witness :
  Forall ordered_range (default [] (Some [(4, 9); (0, 2); (1, 1)]))
  /\ shown (HighlightedText "abcdefg" (Some [(4, 9); (0, 2); (1, 1)])) = "abcdefg"
  /\ tiles 0 7 (index_ranges "abcdefg" (Some [(4, 9); (0, 2); (1, 1)])).
Proof.
  assert (Forall ordered_range (default [] (Some [(4, 9); (0, 2); (1, 1)])))
    as Hord by (repeat constructor; simpl; lia).
  split; [exact Hord|].
  destruct (coverage_of_ordered_ranges "abcdefg" _ Hord) as (Hshown & Htiles & _).
  split; [exact Hshown | exact Htiles].
Defined.

Lemma load_Some (h : heap) (a : loc) (vals : list HighlightRange) :
  load h a = Some vals
  <-> exists hl, arrays h !! a = Some hl
                 /\ Forall2 (points_to (tuples h)) hl vals.
Proof.
  unfold load. split.
  - destruct (arrays h !! a) as [hl|]; [|discriminate].
    intros Hm. exists hl. split; [reflexivity|]. now apply mapM_Some.
  - intros (hl & -> & Hhl). now apply mapM_Some.
Qed.

Lemma contents_are_substrings (text : string)
  (highlights : option (list HighlightRange)) :
  Forall (fun s => exists n m : nat, content s = substring n m text)
    (HighlightedText text highlights).
Proof.
  assert (Forall (fun s => exists n m : nat, content s = substring n m text)
            [Segment plain text]) as Hwhole.
  { repeat constructor. exists 0%nat, (String.length text).
    simpl. now rewrite substring_whole. }
  destruct highlights as [hl|]; [|exact Hwhole].
  unfold HighlightedText. destruct (length hl =? 0)%nat; [exact Hwhole|].
  apply Forall_fmap, Forall_true. intros p. apply slice_substring.
Qed.

(** C8.  For every text and every array of ranges the store has, whatever
    the integers of the ranges are (inverted, negative, beyond the end of
    the text), the function returns: no read in it fails.  Every segment
    it returns has as content a substring of the text, which can be
    empty. *)
Theorem never_throws (text : string) (h : heap) (highlights : option loc) :
  (forall a, highlights = Some a -> is_Some (load h a)) ->
  exists segs h',
    HighlightedTextM text highlights h = Some (segs, h')
    /\ Forall (fun s => exists n m : nat, content s = substring n m text) segs.
Proof.
  intros Hload. destruct highlights as [a|].
  - destruct (Hload a eq_refl) as [vals Hvals].
    apply load_Some in Hvals as (hl & Ha & Hhl).
    destruct (HighlightedTextM_run text h a hl vals Ha Hhl) as (T' & A' & Hrun).
    eexists _, _. split; [exact Hrun|]. apply contents_are_substrings.
  - exists [Segment plain text], h. split; [reflexivity|].
    apply (contents_are_substrings text None).
Qed.

Lemma never_throws_witness :
  (forall a, Some 0%nat = Some a ->
     is_Some (load (Heap [(2, 0); (-1, 1); (5, 90)] [[0; 1; 2; 1]%nat]) a))
  /\ exists segs h',
       HighlightedTextM "abc" (Some 0%nat)
         (Heap [(2, 0); (-1, 1); (5, 90)] [[0; 1; 2; 1]%nat])
       = Some (segs, h')
       /\ Forall (fun s => exists n m : nat, content s = substring n m "abc")
            segs.
Proof.
  assert (forall a, Some 0%nat = Some a ->
            is_Some (load (Heap [(2, 0); (-1, 1); (5, 90)] [[0; 1; 2; 1]%nat]) a))
    as Hload.
  { intros a [= <-]. eexists. reflexivity. }
  split; [exact Hload|]. exact (never_throws "abc" _ _ Hload).
Defined.

(** C9.  The function has no effect on what the caller has: in a store
    in which the array of highlights and its ranges exist, a run returns
    the segments that the pure reading gives for the text and the ranges,
    and leaves every two-element array and every array of the store as it
    was (what it sorts and what it writes to are new objects); so the
    array of the caller still has the same ranges, and a second run
    returns the same segments. *)
Theorem caller_store_is_unchanged (text : string) (h : heap) (a : loc)
  (vals : list HighlightRange) :
  load h a = Some vals ->
  exists h',
    HighlightedTextM text (Some a) h
    = Some (HighlightedText text (Some vals), h')
    /\ (forall r v, tuples h !! r = Some v -> tuples h' !! r = Some v)
    /\ (forall b l, arrays h !! b = Some l -> arrays h' !! b = Some l)
    /\ load h' a = Some vals
    /\ exists h'',
         HighlightedTextM text (Some a) h'
         = Some (HighlightedText text (Some vals), h'').
Proof.
  intros Hvals. apply load_Some in Hvals as (hl & Ha & Hhl).
  destruct (HighlightedTextM_run text h a hl vals Ha Hhl) as (T' & A' & Hrun).
  exists (Heap (tuples h ++ T') (arrays h ++ A')).
  assert (forall r v, tuples h !! r = Some v -> (tuples h ++ T') !! r = Some v)
    as Htuples by (intros r v; apply lookup_app_l_Some).
  assert (forall b l, arrays h !! b = Some l -> (arrays h ++ A') !! b = Some l)
    as Harrays by (intros b l; apply lookup_app_l_Some).
  assert (Forall2 (points_to (tuples h ++ T')) hl vals) as Hhl'.
  { eapply Forall2_impl; [exact Hhl|]. intros r v. apply Htuples. }
  split; [exact Hrun|]. split; [exact Htuples|]. split; [exact Harrays|].
  split.
  - apply load_Some. exists hl. split; [apply Harrays, Ha | exact Hhl'].
  - destruct (HighlightedTextM_run text (Heap (tuples h ++ T') (arrays h ++ A'))
                a hl vals (Harrays _ _ Ha) Hhl') as (T'' & A'' & Hrun').
    eexists. exact Hrun'.
Qed.

Lemma caller_store_is_unchanged_witness :
  load (Heap [(4, 5); (0, 2); (3, 3)] [[0; 1; 0]%nat]) 0%nat
  = Some [(4, 5); (0, 2); (4, 5)]
  /\ exists h',
       HighlightedTextM "abcdefg" (Some 0%nat)
         (Heap [(4, 5); (0, 2); (3, 3)] [[0; 1; 0]%nat])
       = Some (HighlightedText "abcdefg" (Some [(4, 5); (0, 2); (4, 5)]), h')
       /\ load h' 0%nat = Some [(4, 5); (0, 2); (4, 5)].
Proof.
  assert (load (Heap [(4, 5); (0, 2); (3, 3)] [[0; 1; 0]%nat]) 0%nat
          = Some [(4, 5); (0, 2); (4, 5)]) as Hload by reflexivity.
  split; [exact Hload|].
  destruct (caller_store_is_unchanged "abcdefg" _ _ _ Hload)
    as (h' & Hrun & _ & _ & Hload' & _).
  exists h'. split; [exact Hrun | exact Hload'].
Defined.


(** * Further properties of the merge and of the emission *)

Lemma covers_merged (current new : HighlightRange) (i : Z) :
  range_start current <= range_start new ->
  range_start new <= range_end current + 1 ->
  covers (range_start current, Z.max (range_end current) (range_end new)) i
  <-> covers current i \/ covers new i.
Proof. unfold covers, range_start, range_end. simpl. lia. Qed.

Lemma covered_cons (r : HighlightRange) (l : list HighlightRange) (i : Z) :
  covered (r :: l) i <-> covers r i \/ covered l i.
Proof. apply Exists_cons. Qed.

Lemma sorted_by_start_tail (a : HighlightRange) (l : list HighlightRange) :
  sorted_by_start (a :: l) -> sorted_by_start l.
Proof. intros [_ Hl]. exact Hl. Qed.

(** In a sorted list the head may be replaced by a range of the same
    start, and the second range may be dropped. *)
Lemma sorted_by_start_skip (a b c : HighlightRange) (l : list HighlightRange) :
  range_start c = range_start a ->
  sorted_by_start (a :: b :: l) -> sorted_by_start (c :: l).
Proof.
  unfold sorted_by_start. intros Hc (Hab & Hbl & Hl).
  split; [|exact Hl]. destruct l as [|d l]; [exact I|]. lia.
Qed.

(** On sorted ranges the merge keeps the set of covered indices. *)
Lemma spec_merge_covered (rest : list HighlightRange) (current : HighlightRange)
  (i : Z) :
  sorted_by_start (current :: rest) ->
  covered (spec_merge current rest) i <-> covered (current :: rest) i.
Proof.
  revert current. induction rest as [|new rest IH]; intros current Hsorted.
  - reflexivity.
  - simpl spec_merge.
    destruct (Z.leb_spec (range_start new) (range_end current + 1)).
    + rewrite IH by (eapply sorted_by_start_skip; [|exact Hsorted]; reflexivity).
      rewrite !covered_cons, covers_merged; [tauto | apply Hsorted | assumption].
    + rewrite covered_cons, IH by (eapply sorted_by_start_tail, Hsorted).
      rewrite !covered_cons. tauto.
Qed.

Lemma covered_perm (l l' : list HighlightRange) (i : Z) :
  l ≡ₚ l' -> covered l i <-> covered l' i.
Proof.
  intros Hperm. unfold covered. rewrite !Exists_exists.
  split; intros (r & Hr & Hi); exists r; split; auto;
    [rewrite <- Hperm | rewrite Hperm]; exact Hr.
Qed.

Lemma mergedHighlights_covered (highlights : list HighlightRange) (i : Z) :
  covered (mergedHighlights (sortedHighlights highlights)) i
  <-> covered highlights i.
Proof.
  rewrite <- (covered_perm _ _ i (Array_sort_perm by_start highlights)).
  fold (sortedHighlights highlights).
  pose proof (sortedHighlights_sorted highlights) as Hsorted.
  destruct (sortedHighlights highlights) as [|first rest]; [reflexivity|].
  rewrite mergedHighlights_cons. now apply spec_merge_covered.
Qed.

(** The merged ranges of sorted ranges are sorted. *)
Lemma spec_merge_sorted (rest : list HighlightRange) (current : HighlightRange) :
  sorted_by_start (current :: rest) ->
  sorted_by_start (spec_merge current rest).
Proof.
  revert current. induction rest as [|new rest IH]; intros current Hsorted.
  - exact Hsorted.
  - simpl spec_merge.
    destruct (range_start new <=? range_end current + 1).
    + apply IH. eapply sorted_by_start_skip; [|exact Hsorted]. reflexivity.
    + pose proof (IH new (sorted_by_start_tail _ _ Hsorted)) as Htail.
      destruct (spec_merge_head new rest) as (e & tl & Heq).
      rewrite Heq in Htail |- *. split; [|exact Htail].
      apply Hsorted.
Qed.

Lemma mergedHighlights_sorted (highlights : list HighlightRange) :
  sorted_by_start (mergedHighlights (sortedHighlights highlights)).
Proof.
  pose proof (sortedHighlights_sorted highlights) as Hsorted.
  destruct (sortedHighlights highlights) as [|first rest]; [exact I|].
  rewrite mergedHighlights_cons. now apply spec_merge_sorted.
Qed.

Lemma mergedHighlights_fixed (ranges : list HighlightRange) :
  sorted_by_start ranges -> separated ranges ->
  mergedHighlights (sortedHighlights ranges) = ranges.
Proof.
  intros Hsorted Hsep. rewrite sortedHighlights_in_order by assumption.
  destruct ranges as [|first rest]; [reflexivity|].
  rewrite mergedHighlights_cons. now apply spec_merge_apart.
Qed.

Lemma length_spec_merge (rest : list HighlightRange) (current : HighlightRange) :
  (length (spec_merge current rest) <= S (length rest))%nat.
Proof.
  revert current. induction rest as [|new rest IH]; intros current.
  - reflexivity.
  - simpl. destruct (range_start new <=? range_end current + 1).
    + specialize (IH (range_start current,
                      Z.max (range_end current) (range_end new))). lia.
    + specialize (IH new). simpl. lia.
Qed.

Lemma length_mergedHighlights (highlights : list HighlightRange) :
  (length (mergedHighlights (sortedHighlights highlights))
   <= length highlights)%nat.
Proof.
  rewrite <- (length_Array_sort by_start highlights).
  fold (sortedHighlights highlights).
  destruct (sortedHighlights highlights) as [|first rest]; [reflexivity|].
  rewrite mergedHighlights_cons. apply length_spec_merge.
Qed.

Lemma length_spec_emission (text : string) (cursor : Z)
  (ranges : list HighlightRange) :
  (length (spec_emission text cursor ranges) <= 2 * length ranges + 1)%nat.
Proof.
  revert cursor. induction ranges as [|r ranges IH]; intros cursor.
  - simpl. destruct (cursor <? _); simpl; lia.
  - simpl spec_emission. rewrite length_app. simpl length.
    specialize (IH (range_end r + 1)).
    destruct (range_start r >? cursor); simpl length; lia.
Qed.

Lemma not_inverted_max (a b : HighlightRange) :
  not_inverted a -> not_inverted b ->
  not_inverted (range_start a, Z.max (range_end a) (range_end b)).
Proof. unfold not_inverted, range_start, range_end. simpl. lia. Qed.

(** In ranges that are apart and not inverted, the indices covered by
    the ranges after the first are beyond the end of the first. *)
Lemma covered_tail_beyond (l : list HighlightRange) (r : HighlightRange) (i : Z) :
  Forall not_inverted l -> separated (r :: l) -> covered l i ->
  range_end r + 1 < i.
Proof.
  unfold separated. revert r.
  induction l as [|r' l IH]; intros r Hni Hsep Hcov.
  - inversion Hcov.
  - inversion Hni as [|? ? Hr' Hni']; subst.
    destruct Hsep as [Hgap Hsep].
    apply covered_cons in Hcov as [Hc | Hc].
    + unfold covers in Hc. lia.
    + specialize (IH r' Hni' Hsep Hc). unfold not_inverted in Hr'. lia.
Qed.

(** Two lists of ranges that are apart and not inverted and that cover
    the same indices are the same list. *)
Lemma separated_unique (l1 l2 : list HighlightRange) :
  Forall not_inverted l1 -> Forall not_inverted l2 ->
  separated l1 -> separated l2 ->
  (forall i, covered l1 i <-> covered l2 i) -> l1 = l2.
Proof.
  revert l2. induction l1 as [|[s1 e1] t1 IH]; intros [|[s2 e2] t2] Hn1 Hn2 Hs1 Hs2 Hcov.
  - reflexivity.
  - inversion Hn2 as [|? ? Hr _]; subst. exfalso.
    assert (covered [] s2) as Hc; [|inversion Hc].
    apply Hcov, covered_cons. left. unfold covers, not_inverted in *.
    simpl in *. lia.
  - inversion Hn1 as [|? ? Hr _]; subst. exfalso.
    assert (covered [] s1) as Hc; [|inversion Hc].
    apply Hcov, covered_cons. left. unfold covers, not_inverted in *.
    simpl in *. lia.
  - inversion Hn1 as [|? ? Hr1 Hn1']; subst.
    inversion Hn2 as [|? ? Hr2 Hn2']; subst.
    pose proof (fun i => covered_tail_beyond t1 (s1, e1) i Hn1' Hs1) as Ht1.
    pose proof (fun i => covered_tail_beyond t2 (s2, e2) i Hn2' Hs2) as Ht2.
    assert (forall i, covers (s1, e1) i \/ covered t1 i
                      <-> covers (s2, e2) i \/ covered t2 i) as Hcov'.
    { intros i. rewrite <- !covered_cons. apply Hcov. }
    unfold covers, not_inverted, range_start, range_end in *. simpl in *.
    assert (s1 = s2) as ->.
    { pose proof (proj1 (Hcov' s1) ltac:(left; lia)) as [H | H%Ht2].
      - pose proof (proj2 (Hcov' s2) ltac:(left; lia)) as [H' | H'%Ht1]; lia.
      - pose proof (proj2 (Hcov' s2) ltac:(left; lia)) as [H' | H'%Ht1]; lia. }
    assert (e1 = e2) as ->.
    { destruct (Z.lt_trichotomy e1 e2) as [Hlt | [Heq | Hgt]]; [|exact Heq|].
      - pose proof (proj2 (Hcov' (e1 + 1)) ltac:(left; lia)) as [H | H%Ht1]; lia.
      - pose proof (proj1 (Hcov' (e2 + 1)) ltac:(left; lia)) as [H | H%Ht2]; lia. }
    f_equal. apply IH; auto.
    + apply Hs1.
    + apply Hs2.
    + intros i. split; intros Hc.
      * pose proof (Ht1 i Hc).
        destruct (proj1 (Hcov' i) (or_intror Hc)) as [H' | H']; [lia | exact H'].
      * pose proof (Ht2 i Hc).
        destruct (proj2 (Hcov' i) (or_intror Hc)) as [H' | H']; [lia | exact H'].
Qed.

Lemma merged_of_same_cover (hl hl' : list HighlightRange) :
  Forall not_inverted hl -> Forall not_inverted hl' ->
  (forall i, covered hl i <-> covered hl' i) ->
  mergedHighlights (sortedHighlights hl)
  = mergedHighlights (sortedHighlights hl').
Proof.
  intros Hn Hn' Hcov. apply separated_unique.
  - now apply (mergedHighlights_Forall _ not_inverted_max).
  - now apply (mergedHighlights_Forall _ not_inverted_max).
  - apply mergedHighlights_separated.
  - apply mergedHighlights_separated.
  - intros i. now rewrite !mergedHighlights_covered.
Qed.

Lemma HighlightedText_of_merged (text : string) (hl hl' : list HighlightRange) :
  mergedHighlights (sortedHighlights hl)
  = mergedHighlights (sortedHighlights hl') ->
  HighlightedText text (Some hl) = HighlightedText text (Some hl').
Proof.
  intros Heq. unfold HighlightedText, pieces. rewrite Heq.
  destruct hl as [|r hl], hl' as [|r' hl']; try reflexivity.
  - exfalso. symmetry in Heq. revert Heq.
    apply mergedHighlights_nonempty, sortedHighlights_nonempty. discriminate.
  - exfalso. revert Heq.
    apply mergedHighlights_nonempty, sortedHighlights_nonempty. discriminate.
Qed.

(** The highlighted pieces of the emission are the pieces of the ranges. *)
Lemma elem_of_spec_emission_mark (text : string) (cursor : Z)
  (ranges : list HighlightRange) (p : piece) :
  p ∈ spec_emission text cursor ranges /\ piece_kind p = highlighted
  <-> exists r, r ∈ ranges /\ p = mark_of r.
Proof.
  revert cursor. induction ranges as [|r ranges IH]; intros cursor.
  - simpl. split.
    + intros [Hp Hk]. destruct (cursor <? _).
      * apply list_elem_of_singleton in Hp. subst. discriminate.
      * inversion Hp.
    + intros (r & Hr & _). inversion Hr.
  - simpl spec_emission. rewrite elem_of_app, elem_of_cons. split.
    + intros [[Hp | [Hp | Hp]] Hk].
      * destruct (range_start r >? cursor); [|inversion Hp].
        apply list_elem_of_singleton in Hp. subst. discriminate.
      * exists r. split; [left | exact Hp].
      * destruct (proj1 (IH _) (conj Hp Hk)) as (r' & Hr' & ->).
        exists r'. split; [now right | reflexivity].
    + intros (r' & Hr' & ->). split; [|reflexivity].
      apply elem_of_cons in Hr' as [-> | Hr']; [right; now left|].
      right. right. apply (IH (range_end r + 1)). eauto.
Qed.

Lemma count_marks_spec_emission (text : string) (cursor : Z)
  (ranges : list HighlightRange) :
  length (filter (fun s => seg_kind s = highlighted)
            (render text <$> spec_emission text cursor ranges))
  = length ranges.
Proof.
  revert cursor. induction ranges as [|r ranges IH]; intros cursor.
  - simpl. destruct (cursor <? _); reflexivity.
  - simpl spec_emission. rewrite fmap_app, filter_app, length_app, fmap_cons.
    rewrite filter_cons_True by reflexivity. simpl length. rewrite IH.
    destruct (range_start r >? cursor); reflexivity.
Qed.


(** X2.  Sorting and merging is idempotent, for every list of ranges: the
    merged ranges are sorted and apart, sorting and merging them again
    gives them back, and the function gives for them the output it gives
    for the ranges they come from. *)
Theorem merge_is_idempotent (highlights : list HighlightRange) :
  sorted_by_start (mergedHighlights (sortedHighlights highlights))
  /\ separated (mergedHighlights (sortedHighlights highlights))
  /\ mergedHighlights
       (sortedHighlights (mergedHighlights (sortedHighlights highlights)))
     = mergedHighlights (sortedHighlights highlights)
  /\ forall text,
       HighlightedText text
         (Some (mergedHighlights (sortedHighlights highlights)))
       = HighlightedText text (Some highlights).
Proof.
  pose proof (mergedHighlights_sorted highlights) as Hsorted.
  pose proof (mergedHighlights_separated (sortedHighlights highlights)) as Hsep.
  pose proof (mergedHighlights_fixed _ Hsorted Hsep) as Hfix.
  repeat split; auto.
  intros text. now apply HighlightedText_of_merged.
Qed.

(** X3.  The output depends only on the set of indices the ranges cover:
    two lists of ranges that are not inverted and cover the same indices
    (the same ranges in another order, with repetitions, or cut in other
    places) give the same merged ranges and the same segments. *)
Theorem same_cover_same_output (hl hl' : list HighlightRange) :
  Forall not_inverted hl -> Forall not_inverted hl' ->
  (forall i, covered hl i <-> covered hl' i) ->
  mergedHighlights (sortedHighlights hl)
  = mergedHighlights (sortedHighlights hl')
  /\ forall text,
       HighlightedText text (Some hl) = HighlightedText text (Some hl').
Proof.
  intros Hn Hn' Hcov.
  pose proof (merged_of_same_cover hl hl' Hn Hn' Hcov) as Heq.
  split; [exact Heq|]. intros text. now apply HighlightedText_of_merged.
Qed.

Lemma same_cover_same_output_witness :
  Forall not_inverted [(3, 5); (0, 2); (4, 4)]
  /\ Forall not_inverted [(0, 5)]
  /\ HighlightedText "abcdefg" (Some [(3, 5); (0, 2); (4, 4)])
     = HighlightedText "abcdefg" (Some [(0, 5)]).
Proof.
  assert (Forall not_inverted [(3, 5); (0, 2); (4, 4)]) as Hn
    by (repeat constructor; unfold not_inverted; simpl; lia).
  assert (Forall not_inverted [(0, 5)]) as Hn'
    by (repeat constructor; unfold not_inverted; simpl; lia).
  assert (forall i, covered [(3, 5); (0, 2); (4, 4)] i <-> covered [(0, 5)] i)
    as Hcov.
  { intros i. unfold covered. rewrite !Exists_cons, !Exists_nil.
    unfold covers, range_start, range_end. simpl. lia. }
  split; [exact Hn|]. split; [exact Hn'|].
  exact (proj2 (same_cover_same_output _ _ Hn Hn' Hcov) "abcdefg").
Defined.

(** X4.  For ranges with [0 <= start <= end], the character at an index
    is shown inside a highlighted segment exactly when the index is in
    the text and inside one of the given ranges. *)
Theorem highlighted_iff_covered (text : string)
  (highlights : list HighlightRange) (i : Z) :
  Forall ordered_range highlights ->
  highlighted_index text (Some highlights) i
  <-> covered highlights i /\ 0 <= i < Z.of_nat (String.length text).
Proof.
  intros Hord.
  pose proof (mergedHighlights_Forall _ ordered_range_max _ Hord) as Hm.
  rewrite <- (mergedHighlights_covered highlights i).
  unfold highlighted_index, HighlightedText, index_ranges.
  destruct highlights as [|first rest].
  { simpl. split.
    - intros (n & s & r & Hs & _ & Hk & _).
      destruct n; simplify_eq/=.
    - intros [Hc _]. inversion Hc. }
  simpl Nat.eqb. cbv iota. rewrite pieces_spec.
  set (merged := mergedHighlights (sortedHighlights (first :: rest))) in *.
  assert (forall r, r ∈ merged ->
            (index_range text (mark_of r)).1 <= i
              < (index_range text (mark_of r)).2
            <-> covers r i /\ 0 <= i < Z.of_nat (String.length text))
    as Hrange.
  { intros r Hr. rewrite Forall_forall in Hm. destruct (Hm r Hr) as [H0 Hse].
    unfold mark_of. rewrite index_range_ordered by lia.
    unfold covers. simpl. lia. }
  split.
  - intros (n & s & r & Hs & Hr & Hk & Hi).
    rewrite list_lookup_fmap in Hs. rewrite list_lookup_fmap in Hr.
    destruct (spec_emission text 0 merged !! n) as [p|] eqn:Hp;
      simplify_eq/=.
    destruct (proj1 (elem_of_spec_emission_mark text 0 merged p))
      as (r & Hr & ->).
    { split; [eapply list_elem_of_lookup_2, Hp | exact Hk]. }
    apply (Hrange r Hr) in Hi as [Hc Hi]. split; [|exact Hi].
    apply Exists_exists. eauto.
  - intros [Hc Hi]. apply Exists_exists in Hc as (r & Hr & Hc).
    destruct (proj2 (elem_of_spec_emission_mark text 0 merged (mark_of r)))
      as [Hp _]; [eauto|].
    apply list_elem_of_lookup_1 in Hp as [n Hn].
    exists n, (render text (mark_of r)), (index_range text (mark_of r)).
    rewrite !list_lookup_fmap, Hn. repeat split; try reflexivity.
    all: apply (Hrange r Hr); auto.
Qed.

Lemma highlighted_iff_covered_witness :
  Forall ordered_range [(4, 9); (0, 1)]
  /\ (highlighted_index "abcdefg" (Some [(4, 9); (0, 1)]) 5
      <-> covered [(4, 9); (0, 1)] 5 /\ 0 <= 5 < 7).
Proof.
  assert (Forall ordered_range [(4, 9); (0, 1)]) as Hord
    by (repeat constructor; simpl; lia).
  split; [exact Hord|].
  exact (highlighted_iff_covered "abcdefg" _ 5 Hord).
Defined.

(** X5.  The size of the output: there are at most as many merged ranges
    as given ranges, the output has one highlighted segment for each
    merged range, and at most two segments for each given range and one
    more. *)
Theorem output_size (text : string) (first : HighlightRange)
  (rest : list HighlightRange) :
  (length (mergedHighlights (sortedHighlights (first :: rest)))
   <= length (first :: rest))%nat
  /\ length (filter (fun s => seg_kind s = highlighted)
               (HighlightedText text (Some (first :: rest))))
     = length (mergedHighlights (sortedHighlights (first :: rest)))
  /\ (length (HighlightedText text (Some (first :: rest)))
      <= 2 * length (first :: rest) + 1)%nat.
Proof.
  pose proof (length_mergedHighlights (first :: rest)) as Hlen.
  split; [exact Hlen|].
  unfold HighlightedText. simpl Nat.eqb. cbv iota. rewrite pieces_spec.
  split; [apply count_marks_spec_emission|].
  rewrite length_fmap.
  pose proof (length_spec_emission text 0
                (mergedHighlights (sortedHighlights (first :: rest)))).
  lia.
Qed.

Lemma valid_range_max (text : string) (a b : HighlightRange) :
  valid_range text a -> valid_range text b ->
  valid_range text (range_start a, Z.max (range_end a) (range_end b)).
Proof. unfold valid_range, range_start, range_end. simpl. lia. Qed.

Lemma filter_marks_spec_emission (text : string) (cursor : Z)
  (ranges : list HighlightRange) :
  filter (fun s => seg_kind s = highlighted)
    (render text <$> spec_emission text cursor ranges)
  = render text <$> (mark_of <$> ranges).
Proof.
  revert cursor. induction ranges as [|r ranges IH]; intros cursor.
  - simpl. destruct (cursor <? _); reflexivity.
  - simpl spec_emission. rewrite fmap_app, filter_app, fmap_cons.
    rewrite filter_cons_True by reflexivity. rewrite IH.
    destruct (range_start r >? cursor); reflexivity.
Qed.

(** X6.  For ranges with [0 <= start <= end < text.length], the
    highlighted segments of the output are, in their order, the merged
    ranges: the segment of a merged range shows the characters of the
    text from its start to its end, inclusive. *)
Theorem highlighted_segments_are_merged_ranges (text : string)
  (highlights : list HighlightRange) :
  Forall (valid_range text) highlights ->
  filter (fun s => seg_kind s = highlighted)
    (HighlightedText text (Some highlights))
  = (fun r =>
       Segment highlighted
         (substring (Z.to_nat (range_start r))
            (Z.to_nat (range_end r - range_start r + 1)) text))
    <$> mergedHighlights (sortedHighlights highlights).
Proof.
  intros Hvalid.
  pose proof (mergedHighlights_Forall _ (valid_range_max text) _ Hvalid) as Hm.
  unfold HighlightedText. destruct highlights as [|first rest]; [reflexivity|].
  simpl Nat.eqb. cbv iota.
  rewrite pieces_spec, filter_marks_spec_emission, <- list_fmap_compose.
  apply Forall_fmap_ext_1. eapply Forall_impl; [exact Hm|].
  intros r (H0 & Hse & Hlen). unfold render, mark_of. simpl. f_equal.
  rewrite slice_ordered by lia. f_equal; lia.
Qed.

Lemma highlighted_segments_are_merged_ranges_witness :
  Forall (valid_range "abcdefg") [(4, 5); (0, 1); (2, 2)]
  /\ filter (fun s => seg_kind s = highlighted)
       (HighlightedText "abcdefg" (Some [(4, 5); (0, 1); (2, 2)]))
     = [Segment highlighted "abc"; Segment highlighted "ef"].
Proof.
  assert (Forall (valid_range "abcdefg") [(4, 5); (0, 1); (2, 2)]) as Hvalid
    by (repeat constructor; simpl; lia).
  split; [exact Hvalid|].
  exact (highlighted_segments_are_merged_ranges "abcdefg" _ Hvalid).
Defined.

(** * The keyboard handlers *)

Section Handlers.
Context {TGroup TItem : Type}.
Implicit Types (props : PanelProps TGroup TItem) (e : KeyboardEvent).
Implicit Types (calls : list (call TItem)).

(** The event and the calls after the handler of the consumer. *)
Lemma handleKeyDown_cases (okd : option (KeyboardEvent -> bool)) (onClose : bool)
  (h : KeyboardEvent -> KeyboardEvent * list (call TItem)) e :
  let prevented :=
    defaultPrevented e || from_option (fun f => f e) false okd in
  let first := from_option (fun _ => [onKeyDown_called e]) [] okd in
  (prevented = true
   /\ (handleKeyDown okd onClose (Some h) e).2 = first
   /\ defaultPrevented (handleKeyDown okd onClose (Some h) e).1 = true)
  \/ (prevented = false /\ key e = "Escape" /\ onClose = true
      /\ handleKeyDown okd onClose (Some h) e
         = (preventDefault e, first ++ [onOpenChange_called false]))
  \/ (prevented = false /\ (key e <> "Escape" \/ onClose = false)
      /\ handleKeyDown okd onClose (Some h) e
         = ((h e).1, first ++ (h e).2)).
Proof.
  unfold handleKeyDown.
  destruct okd as [f|]; simpl.
  - destruct (f e) eqn:Hf.
    + left. rewrite orb_true_r. simpl. auto.
    + rewrite orb_false_r. destruct (defaultPrevented e) eqn:He; [left; auto|].
      right. destruct (String.eqb_spec (key e) "Escape") as [Hk | Hk];
        destruct onClose; simpl.
      * left. auto.
      * right. destruct (h e). auto.
      * right. destruct (h e). auto.
      * right. destruct (h e). auto.
  - rewrite orb_false_r. destruct (defaultPrevented e) eqn:He; [left; auto|].
    right. destruct (String.eqb_spec (key e) "Escape") as [Hk | Hk];
      destruct onClose; simpl.
    + left. auto.
    + right. destruct (h e). auto.
    + right. destruct (h e). auto.
    + right. destruct (h e). auto.
Qed.

Lemma handleInputKeyDown_cases props (index : Z) e :
  (exists get item,
      getSelectableItems props = Some get
      /\ key e = "Enter" /\ metaKey e || ctrlKey e = true
      /\ onSelect props = true
      /\ array_get (get (items props)) index = Some item
      /\ handleInputKeyDown props index e
         = (preventDefault e, [onSelect_called item true]))
  \/ (handleInputKeyDown props index e = (e, [])
      /\ forall get item,
           getSelectableItems props = Some get ->
           key e = "Enter" -> metaKey e || ctrlKey e = true ->
           onSelect props = true ->
           array_get (get (items props)) index = Some item -> False).
Proof.
  unfold handleInputKeyDown.
  destruct (getSelectableItems props) as [get|];
    [|right; split; [reflexivity | intros; discriminate]].
  destruct (String.eqb_spec (key e) "Enter") as [Hk | Hk]; simpl;
    [|right; split; [reflexivity | intros; congruence]].
  destruct (metaKey e || ctrlKey e) eqn:Hm; simpl;
    [|right; split; [reflexivity | intros; congruence]].
  destruct (onSelect props) eqn:Hs; simpl;
    [|right; split; [reflexivity | intros; congruence]].
  destruct (array_get (get (items props)) index) as [item|] eqn:Hi.
  - left. exists get, item. repeat split; auto.
  - right. split; [reflexivity|]. intros get' item' [= <-]. congruence.
Qed.

End Handlers.

Section HandlerProperties.
Context {TGroup TItem : Type}.
Implicit Types (props : PanelProps TGroup TItem) (e : KeyboardEvent).

(** X7.  A key pressed in the input of a panel calls [onSelect] exactly
    when the key is Enter with Cmd or Ctrl, the event was not prevented
    before or by the handler of the consumer, [onSelect] and
    [getSelectableItems] are given, and the selectable items have an item
    at the highlighted index; the call is for that item, with
    [newTab: true]. *)
Theorem select_fires_on_modified_enter props (highlightedIndex : Z)
  (onKeyDownProp : option (KeyboardEvent -> bool)) (inDialog : bool) e
  (item : TItem) (newTab : bool) :
  onSelect_called item newTab
    ∈ (Panel_keyDown props highlightedIndex onKeyDownProp inDialog e).2
  <-> newTab = true
      /\ key e = "Enter" /\ metaKey e || ctrlKey e = true
      /\ defaultPrevented e = false
      /\ from_option (fun f => f e) false onKeyDownProp = false
      /\ onSelect props = true
      /\ exists get,
           getSelectableItems props = Some get
           /\ array_get (get (items props)) highlightedIndex = Some item.
Proof.
  unfold Panel_keyDown.
  pose proof (handleKeyDown_cases onKeyDownProp inDialog
                (handleInputKeyDown props highlightedIndex) e) as Hcases.
  simpl in Hcases.
  assert (forall c : call TItem,
            c ∈ from_option (fun _ => [onKeyDown_called e]) [] onKeyDownProp ->
            c = onKeyDown_called e) as Hfirst.
  { intros c Hc. destruct onKeyDownProp; simpl in Hc.
    - now apply list_elem_of_singleton in Hc.
    - inversion Hc. }
  destruct Hcases as [(Hp & -> & _) | [(Hp & Hk & Hc & ->) | (Hp & Hk & ->)]].
  - split.
    + intros Hin%Hfirst. discriminate.
    + intros (_ & _ & _ & He & Hf & _).
      rewrite He, Hf in Hp. discriminate.
  - split.
    + simpl. rewrite elem_of_app, list_elem_of_singleton.
      intros [Hin%Hfirst | Hin]; discriminate.
    + intros (_ & Hk' & _). congruence.
  - apply orb_false_iff in Hp as [He Hf]. simpl. rewrite elem_of_app.
    destruct (handleInputKeyDown_cases props highlightedIndex e)
      as [(get & item' & Hget & Hkey & Hmod & Hsel & Hitem & ->)
         | [-> Hnone]]; simpl.
    + rewrite list_elem_of_singleton. split.
      * intros [Hin%Hfirst | [= -> ->]]; [discriminate|].
        repeat split; auto. eauto.
      * intros (-> & _ & _ & _ & _ & _ & get' & Hget' & Hitem').
        right. congruence.
    + split.
      * intros [Hin%Hfirst | Hin]; [discriminate | inversion Hin].
      * intros (_ & Hkey & Hmod & _ & _ & Hsel & get & Hget & Hitem).
        exfalso. eapply Hnone; eauto.
Qed.

(** X8.  On an event that was not prevented, and that the handler of the
    consumer does not prevent, the handlers call [preventDefault] exactly
    when they act, by closing the dialog or by selecting an item;
    otherwise the key is left to its default handling.  The dialog is
    closed exactly on Escape inside a dialog, and the handlers never both
    close and select. *)
Theorem default_prevented_when_acting props (highlightedIndex : Z)
  (onKeyDownProp : option (KeyboardEvent -> bool)) (inDialog : bool) e :
  defaultPrevented e = false ->
  from_option (fun f => f e) false onKeyDownProp = false ->
  let result := Panel_keyDown props highlightedIndex onKeyDownProp inDialog e in
  (defaultPrevented result.1 = true <-> acted result.2)
  /\ (onOpenChange_called false ∈ result.2
      <-> key e = "Escape" /\ inDialog = true)
  /\ ~ (onOpenChange_called false ∈ result.2
        /\ exists item newTab, onSelect_called item newTab ∈ result.2).
Proof.
  intros He Hf result. subst result. unfold Panel_keyDown, acted.
  pose proof (handleKeyDown_cases onKeyDownProp inDialog
                (handleInputKeyDown props highlightedIndex) e) as Hcases.
  simpl in Hcases. rewrite He, Hf in Hcases. simpl in Hcases.
  assert (forall c : call TItem,
            c ∈ from_option (fun _ => [onKeyDown_called e]) [] onKeyDownProp ->
            c = onKeyDown_called e) as Hfirst.
  { intros c Hc. destruct onKeyDownProp; simpl in Hc.
    - now apply list_elem_of_singleton in Hc.
    - inversion Hc. }
  destruct Hcases as [(Hp & _) | [(_ & Hk & Hc & ->) | (_ & Hk & ->)]];
    [discriminate| |].
  - simpl. split; [|split].
    + split; [|reflexivity]. intros _. left.
      apply elem_of_app. right. now left.
    + split; [auto|]. intros _. apply elem_of_app. right. now left.
    + intros [_ (item & nt & Hin)].
      apply elem_of_app in Hin as [Hin%Hfirst | Hin%list_elem_of_singleton];
        discriminate.
  - simpl.
    destruct (handleInputKeyDown_cases props highlightedIndex e)
      as [(get & item' & Hget & Hkey & Hmod & Hsel & Hitem & ->)
         | [-> Hnone]]; simpl.
    + split; [|split].
      * split; [|reflexivity]. intros _. right. exists item', true.
        apply elem_of_app. right. now left.
      * split.
        -- intros [Hin%Hfirst | Hin%list_elem_of_singleton]%elem_of_app;
             discriminate.
        -- intros [Hesc Hd]. rewrite Hkey in Hesc. discriminate.
      * intros [[Hin%Hfirst | Hin%list_elem_of_singleton]%elem_of_app _];
          discriminate.
    + rewrite app_nil_r. split; [|split].
      * rewrite He. split; [discriminate|].
        intros [Hin%Hfirst | (item & nt & Hin%Hfirst)]; discriminate.
      * split; [intros Hin%Hfirst; discriminate|].
        intros [Hesc Hd]. destruct Hk; congruence.
      * intros [Hin%Hfirst _]. discriminate.
Qed.

(** X9.  When the event was prevented before, or the handler of the
    consumer prevents it, the handlers do nothing more: the only call is
    the one of the handler of the consumer, the dialog is not closed and
    no item is selected. *)
Theorem prevented_event_is_left_alone props (highlightedIndex : Z)
  (onKeyDownProp : option (KeyboardEvent -> bool)) (inDialog : bool) e :
  defaultPrevented e || from_option (fun f => f e) false onKeyDownProp = true ->
  (Panel_keyDown props highlightedIndex onKeyDownProp inDialog e).2
  = from_option (fun _ => [onKeyDown_called e]) [] onKeyDownProp
  /\ ~ acted (Panel_keyDown props highlightedIndex onKeyDownProp inDialog e).2.
Proof.
  intros Hp. unfold Panel_keyDown, acted.
  pose proof (handleKeyDown_cases onKeyDownProp inDialog
                (handleInputKeyDown props highlightedIndex) e) as Hcases.
  simpl in Hcases. rewrite Hp in Hcases.
  destruct Hcases as [(_ & -> & _) | [(Hp' & _) | (Hp' & _)]];
    [|discriminate..].
  split; [reflexivity|].
  destruct onKeyDownProp; simpl.
  - intros [Hin%list_elem_of_singleton
           | (item & nt & Hin%list_elem_of_singleton)]; discriminate.
  - intros [Hin | (item & nt & Hin)]; inversion Hin.
Qed.


End HandlerProperties.

Lemma default_prevented_when_acting_witness :
  let props := {| items := [[10; 20]; [30]];
                  onSelect := true;
                  getSelectableItems := Some (@concat Z);
                  onItemHighlighted := false |} in
  let e := {| key := "Enter"; metaKey := false; ctrlKey := true;
              defaultPrevented := false |} in
  defaultPrevented e = false
  /\ Panel_keyDown props 2 None true e
     = (preventDefault e, [onSelect_called 30 true])
  /\ (defaultPrevented (Panel_keyDown props 2 None true e).1 = true
      <-> acted (Panel_keyDown props 2 None true e).2).
Proof.
  intros props e.
  assert (defaultPrevented e = false) as He by reflexivity.
  assert (from_option (fun f => f e) false None = false) as Hf by reflexivity.
  split; [exact He|]. split; [reflexivity|].
  exact (proj1 (default_prevented_when_acting props 2 None true e He Hf)).
Defined.

Lemma prevented_event_is_left_alone_witness :
  let props := {| items := [[10; 20]; [30]];
                  onSelect := true;
                  getSelectableItems := Some (@concat Z);
                  onItemHighlighted := false |} in
  let e := {| key := "Escape"; metaKey := false; ctrlKey := false;
              defaultPrevented := false |} in
  (Panel_keyDown props 0 (Some (fun _ => true)) true e).2
  = [onKeyDown_called e]
  /\ ~ acted (Panel_keyDown props 0 (Some (fun _ => true)) true e).2.
Proof.
  intros props e.
  exact (prevented_event_is_left_alone props 0 (Some (fun _ => true)) true e
           eq_refl).
Defined.



(** * ResultItem *)

Lemma shown_HighlightedText (text : string)
  (highlights : option (list HighlightRange)) :
  Forall ordered_range (default [] highlights) ->
  shown (HighlightedText text highlights) = text.
Proof.
  intros Hord. destruct highlights as [hl|]; [|apply string_app_empty_r].
  unfold HighlightedText.
  destruct (length hl =? 0)%nat; [apply string_app_empty_r|].
  rewrite pieces_spec, shown_spec_emission
    by (try apply walkable_merged; auto; lia).
  rewrite Z.min_l, Z.sub_0_r, Nat2Z.id by lia. apply substring_whole.
Qed.

(** X11.  When the ranges given for the title and for the breadcrumbs
    have [0 <= start <= end], a result item shows the title in full and
    every breadcrumb in full, in their order, whatever the number of
    lists of highlights given for the breadcrumbs; a breadcrumb without a
    list of highlights at its index is shown as one plain segment. *)
Theorem result_item_shows_its_texts (props : ResultItemProps) :
  Forall ordered_range (default [] (titleHighlights props)) ->
  Forall (Forall ordered_range) (default [] (breadcrumbHighlights props)) ->
  shown (view_title (ResultItem props)) = title props
  /\ shown <$> view_breadcrumbs (ResultItem props)
     = default [] (breadcrumbs props)
  /\ forall index crumb,
       default [] (breadcrumbs props) !! index = Some crumb ->
       highlights_at (breadcrumbHighlights props) index = None ->
       view_breadcrumbs (ResultItem props) !! index
       = Some [Segment plain crumb].
Proof.
  intros Htitle Hcrumbs. split; [now apply shown_HighlightedText|].
  unfold ResultItem. simpl.
  destruct (breadcrumbs props) as [crumbs|]; simpl; [|split; [reflexivity|]].
  2: { intros index crumb Hc. discriminate. }
  split.
  - apply list_eq. intros index.
    rewrite list_lookup_fmap, list_lookup_imap.
    destruct (crumbs !! index) as [crumb|]; [|reflexivity]. simpl. f_equal.
    apply shown_HighlightedText.
    unfold highlights_at.
    destruct (breadcrumbHighlights props) as [all|]; [|constructor].
    destruct (all !! index) as [hl|] eqn:Hhl; [|constructor].
    simpl in Hcrumbs |- *. rewrite Forall_forall in Hcrumbs.
    eapply Hcrumbs, list_elem_of_lookup_2, Hhl.
  - intros index crumb Hc Hnone.
    rewrite list_lookup_imap, Hc. simpl. now rewrite Hnone.
Qed.

Lemma result_item_shows_its_texts_witness :
  let props :=
    {| title := "Workers"; breadcrumbs := Some ["Account"; "Compute"];
       titleHighlights := Some [(0, 3)];
       breadcrumbHighlights := Some [[(2, 4); (0, 0)]];
       description := None; icon := false; showArrow := None;
       external := None; nonInteractive := None |} in
  shown (view_title (ResultItem props)) = "Workers"
  /\ shown <$> view_breadcrumbs (ResultItem props) = ["Account"; "Compute"]
  /\ view_breadcrumbs (ResultItem props) !! 1%nat
     = Some [Segment plain "Compute"].
Proof.
  intros props.
  assert (Forall ordered_range (default [] (titleHighlights props))) as Ht
    by (repeat constructor; simpl; lia).
  assert (Forall (Forall ordered_range)
            (default [] (breadcrumbHighlights props))) as Hb
    by (repeat constructor; simpl; lia).
  destruct (result_item_shows_its_texts props Ht Hb) as (H1 & H2 & H3).
  split; [exact H1|]. split; [exact H2|].
  exact (H3 1%nat "Compute" eq_refl eq_refl).
Defined.

(** * The command [blocks] *)

Section SortOrder.
Context {A : Type} (cmp : A -> A -> Z).
Hypothesis cmp_total : forall a b, cmp a b <= 0 \/ cmp b a <= 0.

Lemma insert_sorted_in_order (x : A) (l : list A) :
  chain (fun a b => cmp a b <= 0) l ->
  chain (fun a b => cmp a b <= 0) (insert_sorted cmp x l).
Proof.
  induction l as [|y l IH]; intros Hl.
  - simpl. tauto.
  - simpl. destruct (Z.leb_spec (cmp x y) 0) as [Hxy | Hxy].
    + apply chain_cons. split; assumption.
    + destruct Hl as [Hy Hl]. specialize (IH Hl).
      destruct l as [|z l].
      * simpl. repeat split. destruct (cmp_total x y); lia.
      * simpl in IH |- *. destruct (Z.leb_spec (cmp x z) 0).
        -- repeat split; try assumption; try apply Hl.
           destruct (cmp_total x y); lia.
        -- split; [assumption | exact IH].
Qed.

(** With a comparison that is total, each element of the sorted array
    and the one after it are in order. *)
Lemma Array_sort_chain (l : list A) :
  chain (fun a b => cmp a b <= 0) (Array_sort cmp l).
Proof.
  induction l as [|x l IH]; [exact I|].
  apply insert_sorted_in_order, IH.
Qed.

End SortOrder.

Lemma string_compare_le (a b : string) :
  string_compare a b <= 0 <-> String.le a b.
Proof.
  unfold string_compare, String.le, String.leb.
  destruct (String.compare a b); simpl; split; intros; try lia; try tauto.
Qed.

Lemma string_compare_total (a b : string) :
  string_compare a b <= 0 \/ string_compare b a <= 0.
Proof. rewrite !string_compare_le. apply total, _. Qed.

Lemma string_compare_trans (a b c : string) :
  string_compare a b <= 0 -> string_compare b c <= 0 ->
  string_compare a c <= 0.
Proof. rewrite !string_compare_le. apply transitivity. Qed.


Lemma chain_pairwise {A : Type} (R : A -> A -> Prop) (l : list A) :
  (forall a b c, R a b -> R b c -> R a c) -> chain R l -> pairwise R l.
Proof.
  intros Htrans. induction l as [|a l IH]; [trivial|].
  intros [Ha Hl]. specialize (IH Hl). split; [|exact IH].
  destruct l as [|b l]; [constructor|].
  destruct IH as [Hb _]. constructor; [exact Ha|].
  eapply Forall_impl; [exact Hb|]. intros c. now apply Htrans.
Qed.


(** ** The map *)

Section MapLemmas.
Context {V : Type}.
Implicit Types (m : list (string * V)) (k : string) (v : V).






End MapLemmas.

(** ** The grouping *)














Section LocaleCompare.
Variable localeCompare : string -> string -> Z.
Hypothesis localeCompare_total :
  forall a b, localeCompare a b <= 0 \/ localeCompare b a <= 0.
Hypothesis localeCompare_trans :
  forall a b c,
    localeCompare a b <= 0 -> localeCompare b c <= 0 -> localeCompare a c <= 0.

(** X13.  With a [localeCompare] that is total and transitive, the blocks
    of each section are listed in the order of their names: each block
    comes before all the blocks listed after it. *)
Theorem blocks_sections_in_name_order (blockList : list Block.t) :
  Forall
    (fun s =>
       pairwise
         (fun a b => localeCompare (Block.name a) (Block.name b) <= 0) s.2)
    (sections localeCompare blockList).
Proof.
  unfold sections. apply Forall_fmap, Forall_true. intros c. simpl.
  unfold categoryBlocks. apply chain_pairwise.
  - intros x y z. apply localeCompare_trans.
  - apply (Array_sort_chain
             (fun a b => localeCompare (Block.name a) (Block.name b))).
    intros a b. apply localeCompare_total.
Qed.

End LocaleCompare.

Lemma blocks_sections_in_name_order_witness :
  let block name category :=
    {| Block.name := name; Block.type := "block"; Block.description := "";
       Block.category := category; Block.files := [];
       Block.dependencies := [] |} in
  Forall
    (fun s =>
       pairwise
         (fun a b => string_compare (Block.name a) (Block.name b) <= 0) s.2)
    (sections string_compare
       [block "PageHeader" "Layout"; block "Zed" ""; block "Alpha" "Layout"]).
Proof.
  intros block.
  exact (blocks_sections_in_name_order string_compare string_compare_total
           string_compare_trans _).
Defined.


(** * ClipboardText *)


(** X15.  [onCopy] is called only right after [setCopied(true)]; the
    component is set to copied exactly when [writeText] resolves, or the
    copy through the textarea is reached in a document and [execCommand]
    does not throw; and without the Clipboard API and without a document
    the function does nothing. *)
Theorem onCopy_follows_copied (text : string) (env : CopyEnvironment) :
  (forall i : nat,
     copyToClipboard text env !! i = Some onCopy_called ->
     exists j : nat, i = S j
                     /\ copyToClipboard text env !! j = Some (setCopied true))
  /\ (setCopied true ∈ copyToClipboard text env
      <-> clipboard_writeText env = Some returns
          \/ (falls_back env = true /\ document_defined env = true
              /\ execCommand_copy env = returns))
  /\ (clipboard_writeText env = None -> document_defined env = false ->
      copyToClipboard text env = []).
Proof.
  destruct env as [api doc range exec oncopy].
  unfold copyToClipboard, copy_with_textarea, copied_and_onCopy, falls_back.
  simpl. split; [|split].
  - intros i Hi.
    destruct api as [[|]|], doc, range as [r|], exec, oncopy as [f|];
      try destruct (f 0%nat); try destruct (f 1%nat); simpl in Hi;
      repeat (destruct i as [|i]; simpl in Hi; try discriminate Hi;
              try (eexists; split; [reflexivity|]; reflexivity)).
  - destruct api as [[|]|], doc, range as [r|], exec, oncopy as [f|];
      try destruct (f 0%nat); try destruct (f 1%nat); simpl;
      (split;
       [ intros Hin;
         repeat (apply elem_of_cons in Hin as [Hin | Hin];
                 [try discriminate Hin|]);
         first [ now left | now right | inversion Hin ]
       | intros [H | (H1 & H2 & H3)]; try discriminate;
         repeat first [ now left | right ] ]).
  - intros -> ->. reflexivity.
Qed.

(** X16.  With an [onCopy] that does not throw, a click sets the
    component to copied at most once and calls [onCopy] at most once, and
    it calls [onCopy] exactly when it sets the component to copied (and
    [onCopy] is given). *)
Theorem onCopy_called_once (text : string) (env : CopyEnvironment) :
  (forall answers n, onCopy env = Some answers -> answers n = returns) ->
  (length (filter (fun e => e = setCopied true) (copyToClipboard text env))
   <= 1)%nat
  /\ (length (filter (fun e => e = onCopy_called) (copyToClipboard text env))
      <= 1)%nat
  /\ (onCopy_called ∈ copyToClipboard text env
      <-> is_Some (onCopy env) /\ setCopied true ∈ copyToClipboard text env).
Proof.
  intros Hanswers. destruct env as [api doc range exec oncopy].
  simpl in Hanswers.
  unfold copyToClipboard, copy_with_textarea, copied_and_onCopy. simpl.
  assert (forall n, from_option (fun f => f n) returns oncopy = returns) as Hf.
  { intros n. destruct oncopy as [f|]; simpl; eauto. }
  destruct oncopy as [f|]; simpl in Hf.
  - rewrite !Hf.
    destruct api as [[|]|], doc, range as [r|], exec; simpl;
      (split; [lia|]; split; [lia|]);
      (split;
       [ intros Hin; split; [eauto|];
         repeat (apply elem_of_cons in Hin as [Hin | Hin];
                 [try discriminate Hin|]);
         try (inversion Hin; fail);
         repeat first [ now left | right ]
       | intros [_ Hin];
         repeat (apply elem_of_cons in Hin as [Hin | Hin];
                 [try discriminate Hin|]);
         try (inversion Hin; fail);
         repeat first [ now left | right ] ]).
  - destruct api as [[|]|], doc, range as [r|], exec; simpl;
      (split; [lia|]; split; [lia|]);
      (split;
       [ intros Hin;
         repeat (apply elem_of_cons in Hin as [Hin | Hin];
                 [try discriminate Hin|]);
         inversion Hin
       | intros [[f Hsome] _]; discriminate ]).
Qed.

Lemma onCopy_called_once_witness :
  let env := {| clipboard_writeText := Some throws; document_defined := true;
                previousRange := Some 7%nat; execCommand_copy := returns;
                onCopy := Some (fun _ => returns) |} in
  copyToClipboard "sk_live" env
  = [writeText "sk_live"; appendChild_textarea "sk_live"; textarea_select;
     execCommand_called; setCopied true; onCopy_called;
     removeChild_textarea; removeAllRanges; addRange 7%nat]
  /\ (length (filter (fun e => e = onCopy_called)
                (copyToClipboard "sk_live" env)) <= 1)%nat.
Proof.
  intros env. split; [reflexivity|].
  assert (forall answers n, onCopy env = Some answers -> answers n = returns)
    as Hanswers by (intros answers n [= <-]; reflexivity).
  exact (proj1 (proj2 (onCopy_called_once "sk_live" env Hanswers))).
Defined.
